(** * borges: the job producer, the consumer wiring and the repository lock

    A shallow embedding of [producer.go] and of
    [cli/borges/consumer.go].

    The producer is a small concurrent object: [Start] and [Stop] are
    called from different goroutines and meet on three shared pieces of
    state, the [running] flag, the two [sync.Once] guards and the
    [sync.WaitGroup].  Each goroutine is modelled as a program counter
    that walks the lines of [producer.go]; a schedule (a list of
    goroutine indices) picks who moves next.  The memory is taken to be
    sequentially consistent. *)

From stdpp Require Import base numbers list list_numbers gmap strings.
From Stdlib Require Import ZArith Lia.

Set Default Proof Using "Type".

(** Go's [error] interface: [None] is [nil], [Some msg] an error value. *)
Definition error := string.

(** [Job{RepositoryID: n}]: the only field [producer.go] touches, a
    [uint64]. *)
Record Job := { RepositoryID : Z }.

(** [uint64] arithmetic wraps around. *)
Definition uint64_mod : Z := (2 ^ 64)%Z.
Definition wrap64 (z : Z) : Z := (z mod uint64_mod)%Z.

(** [var n uint64] and the method [next] of the producer: [n++] and
    then a job whose [RepositoryID] is [n], with a nil error.  The global counter is
    passed in and out; the half-second sleep has no effect on the
    state. *)
Definition next (n : Z) : Z * Job * option error :=
  let n' := wrap64 (n + 1) in
  (n', {| RepositoryID := n' |}, None).

(** [sync.Once]: [Fresh] before the first [Do], [Busy] while the
    function of the first [Do] runs (later callers wait on the
    mutex), [Finished] once it has returned. *)
Inductive Once := Fresh | Busy | Finished.

Global Instance Once_eq_dec : EqDecision Once.
Proof. solve_decision. Defined.

(** The two exported methods a goroutine may call. *)
Inductive call := Start | Stop.

Global Instance call_eq_dec : EqDecision call.
Proof. solve_decision. Defined.

Section Producer.

(** [queue.Job] and [queue.Queue] belong to the framework; the
    callback's closure owns a state of type [U]. *)
Context {QJob Q U : Type}.
Variable NewJob : QJob.
Variable Encode : QJob -> Job -> QJob * option error.
Variable Publish : Q -> QJob -> Q * option error.

(** [type Producer struct]. *)
Record Producer := mkProducer {
  Notifiers_Done : option (Job -> option error -> U -> U);
  queue : Q;
  running : bool;
  startOnce : Once;
  stopOnce : Once;
  wg : Z
}.

(** [NewProducer]: the flag is false, both guards are fresh and the
    wait group is at zero.  The notifier is set by the caller
    afterwards, as a field. *)
Definition NewProducer (q : Q) : Producer :=
  {| Notifiers_Done := None; queue := q; running := false;
     startOnce := Fresh; stopOnce := Fresh; wg := 0 |}.

Definition IsRunning (p : Producer) : bool := running p.

Definition set_Done d (p : Producer) : Producer :=
  {| Notifiers_Done := d; queue := queue p; running := running p;
     startOnce := startOnce p; stopOnce := stopOnce p; wg := wg p |}.
Definition set_queue q (p : Producer) : Producer :=
  {| Notifiers_Done := Notifiers_Done p; queue := q; running := running p;
     startOnce := startOnce p; stopOnce := stopOnce p; wg := wg p |}.
Definition set_running b (p : Producer) : Producer :=
  {| Notifiers_Done := Notifiers_Done p; queue := queue p; running := b;
     startOnce := startOnce p; stopOnce := stopOnce p; wg := wg p |}.
Definition set_startOnce o (p : Producer) : Producer :=
  {| Notifiers_Done := Notifiers_Done p; queue := queue p; running := running p;
     startOnce := o; stopOnce := stopOnce p; wg := wg p |}.
Definition set_stopOnce o (p : Producer) : Producer :=
  {| Notifiers_Done := Notifiers_Done p; queue := queue p; running := running p;
     startOnce := startOnce p; stopOnce := o; wg := wg p |}.
Definition set_wg z (p : Producer) : Producer :=
  {| Notifiers_Done := Notifiers_Done p; queue := queue p; running := running p;
     startOnce := startOnce p; stopOnce := stopOnce p; wg := z |}.

(** Everything the goroutines share: the producer, the package level
    counter [n] and the state behind the callback. *)
Record World := mkWorld { prod : Producer; n : Z; user : U }.

Definition with_prod (f : Producer -> Producer) (w : World) : World :=
  {| prod := f (prod w); n := n w; user := user w |}.

(** [notifyDone]: return at once on a nil callback, otherwise call
    it with the job and the error. *)
Definition notifyDone (p : Producer) (j : Job) (err : option error) (u : U) : U :=
  match Notifiers_Done p with
  | None => u
  | Some f => f j err u
  end.

(** Where a goroutine stands, by line of [producer.go]. *)
Inductive pc :=
| Start_L40                                   (* p.startOnce.Do(p.start) *)
| start_L49                                   (* p.running = true *)
| start_L50                                   (* p.wg.Add(1) *)
| start_L53                                   (* if !p.running { break } *)
| start_L57                                   (* j, err := p.next() *)
| start_L58 (j : Job) (err : option error)    (* if err != nil { continue } *)
| start_L64 (j : Job)                         (* job.Encode(j) *)
| start_L69 (j : Job) (job : QJob)            (* p.queue.Publish(job) *)
| start_notifyDone (j : Job) (err : option error) (* lines 65, 70, 74 *)
| start_deferred                              (* defer p.wg.Done() *)
| Start_return                                (* the guard records the run *)
| Stop_L45                                    (* p.stopOnce.Do(p.stop) *)
| stop_L79                                    (* p.running = false *)
| stop_L80                                    (* p.wg.Wait() *)
| Stop_return.

(** A goroutine: the line it is at ([None] between two calls), the
    calls it still has to make and the calls that have returned. *)
Record Thread := mkThread {
  at_pc : option pc;
  todo : list call;
  returned : list call
}.

Definition goto (l : pc) (t : Thread) : Thread :=
  {| at_pc := Some l; todo := todo t; returned := returned t |}.
Definition ret (c : call) (t : Thread) : Thread :=
  {| at_pc := None; todo := todo t; returned := returned t ++ [c] |}.

Definition entry (c : call) : pc :=
  match c with Start => Start_L40 | Stop => Stop_L45 end.

(** One move of one goroutine; [None] when it cannot move (it has
    nothing left to do, waits for a guard held by someone else, or
    waits for the wait group). *)
Definition thread_step (w : World) (t : Thread) : option (World * Thread) :=
  let p := prod w in
  match at_pc t with
  | None =>
      match todo t with
      | [] => None
      | c :: rest =>
          Some (w, {| at_pc := Some (entry c); todo := rest; returned := returned t |})
      end
  | Some Start_L40 =>
      match startOnce p with
      | Fresh => Some (with_prod (set_startOnce Busy) w, goto start_L49 t)
      | Busy => None
      | Finished => Some (w, ret Start t)
      end
  | Some start_L49 => Some (with_prod (set_running true) w, goto start_L50 t)
  | Some start_L50 => Some (with_prod (set_wg (wg p + 1)) w, goto start_L53 t)
  | Some start_L53 =>
      if running p then Some (w, goto start_L57 t)
      else Some (w, goto start_deferred t)
  | Some start_L57 =>
      let '(n', j, err) := next (n w) in
      Some ({| prod := p; n := n'; user := user w |}, goto (start_L58 j err) t)
  | Some (start_L58 j err) =>
      match err with
      | Some _ => Some (w, goto start_L53 t)
      | None => Some (w, goto (start_L64 j) t)
      end
  | Some (start_L64 j) =>
      let '(job, err) := Encode NewJob j in
      match err with
      | Some e => Some (w, goto (start_notifyDone j (Some e)) t)
      | None => Some (w, goto (start_L69 j job) t)
      end
  | Some (start_L69 j job) =>
      let '(q', err) := Publish (queue p) job in
      Some (with_prod (set_queue q') w, goto (start_notifyDone j err) t)
  | Some (start_notifyDone j err) =>
      Some ({| prod := p; n := n w; user := notifyDone p j err (user w) |},
            goto start_L53 t)
  | Some start_deferred =>
      Some (with_prod (set_wg (wg p - 1)) w, goto Start_return t)
  | Some Start_return =>
      Some (with_prod (set_startOnce Finished) w, ret Start t)
  | Some Stop_L45 =>
      match stopOnce p with
      | Fresh => Some (with_prod (set_stopOnce Busy) w, goto stop_L79 t)
      | Busy => None
      | Finished => Some (w, ret Stop t)
      end
  | Some stop_L79 => Some (with_prod (set_running false) w, goto stop_L80 t)
  | Some stop_L80 =>
      if decide (wg p = 0%Z) then Some (w, goto Stop_return t) else None
  | Some Stop_return =>
      Some (with_prod (set_stopOnce Finished) w, ret Stop t)
  end.

(** The whole program: the shared world and the goroutines. *)
Record Config := mkConfig { world : World; threads : list Thread }.

(** The scheduler lets goroutine [i] move; a goroutine that cannot
    move (or does not exist) leaves the configuration as it is. *)
Definition sched_step (c : Config) (i : nat) : Config :=
  match threads c !! i with
  | None => c
  | Some t =>
      match thread_step (world c) t with
      | None => c
      | Some (w', t') => {| world := w'; threads := <[i:=t']> (threads c) |}
      end
  end.

Definition run (c : Config) (sched : list nat) : Config :=
  fold_left sched_step sched c.

(** The configurations visited, the first one included. *)
Fixpoint trace (c : Config) (sched : list nat) : list Config :=
  match sched with
  | [] => [c]
  | i :: rest => c :: trace (sched_step c i) rest
  end.

(** [k] moves of one goroutine on its own. *)
Fixpoint thread_steps (k : nat) (w : World) (t : Thread) : option (World * Thread) :=
  match k with
  | O => Some (w, t)
  | S k' =>
      match thread_step w t with
      | None => None
      | Some (w', t') => thread_steps k' w' t'
      end
  end.

(** ** Where the goroutines are *)

(** Number of goroutines that satisfy [f]. *)
Definition count (f : Thread -> bool) (ts : list Thread) : nat :=
  sum_list_with (fun t => if f t then 1 else 0) ts.

Definition at_L49 (t : Thread) : bool :=
  match at_pc t with Some start_L49 => true | _ => false end.
Definition at_L50 (t : Thread) : bool :=
  match at_pc t with Some start_L50 => true | _ => false end.

(** Between [p.wg.Add(1)] and the deferred [p.wg.Done()]: inside the
    [for] loop, or out of it with the wait group still held. *)
Definition in_loop (t : Thread) : bool :=
  match at_pc t with
  | Some (start_L53 | start_L57 | start_L58 _ _ | start_L64 _
         | start_L69 _ _ | start_notifyDone _ _ | start_deferred) => true
  | _ => false
  end.

(** Inside the [for] loop proper. *)
Definition iterating (t : Thread) : bool :=
  match at_pc t with
  | Some (start_L53 | start_L57 | start_L58 _ _ | start_L64 _
         | start_L69 _ _ | start_notifyDone _ _) => true
  | _ => false
  end.

Definition at_Start_return (t : Thread) : bool :=
  match at_pc t with Some Start_return => true | _ => false end.
Definition at_L79 (t : Thread) : bool :=
  match at_pc t with Some stop_L79 => true | _ => false end.
Definition at_L80 (t : Thread) : bool :=
  match at_pc t with Some stop_L80 => true | _ => false end.
Definition at_Stop_return (t : Thread) : bool :=
  match at_pc t with Some Stop_return => true | _ => false end.

(** The goroutine has come back from a call of [c]. *)
Definition has_returned (c : call) (t : Thread) : bool :=
  bool_decide (c ∈ returned t).

(** The goroutine holds a source error in its hands (line 58 with a
    non-nil [err]). *)
Definition holds_source_error (t : Thread) : bool :=
  match at_pc t with Some (start_L58 _ (Some _)) => true | _ => false end.

(** The body of [start] is over for everybody: nobody stands between
    line 49 and the deferred [p.wg.Done()]. *)
Definition loop_exited (c : Config) : Prop :=
  count at_L49 (threads c) + count at_L50 (threads c)
    + count in_loop (threads c) = 0.

(** The publish loop is running and nobody has called [Stop] yet:
    one goroutine is inside the loop of [start], the flag is up, the
    wait group counts that goroutine. *)
Record LoopRunning (c : Config) : Prop := {
  lr_startOnce : startOnce (prod (world c)) = Busy;
  lr_stopOnce : stopOnce (prod (world c)) = Fresh;
  lr_running : running (prod (world c)) = true;
  lr_wg : wg (prod (world c)) = 1%Z;
  lr_loop : count in_loop (threads c) = 1;
  lr_pre : count at_L49 (threads c) + count at_L50 (threads c) = 0;
  lr_stop : count at_L79 (threads c) + count at_L80 (threads c)
            + count at_Stop_return (threads c) = 0;
  lr_ret : count (has_returned Stop) (threads c) = 0
}.

(** What stays true from [LoopRunning] on, whoever moves. *)
Definition stop_inv (c : Config) : Prop :=
  let p := prod (world c) in
  let ts := threads c in
  startOnce p <> Fresh /\
  count at_L49 ts + count at_L50 ts = 0 /\
  wg p = Z.of_nat (count in_loop ts) /\
  match stopOnce p with
  | Fresh =>
      count at_L79 ts + count at_L80 ts + count at_Stop_return ts = 0 /\
      count (has_returned Stop) ts = 0 /\ running p = true
  | Busy =>
      count at_L79 ts + count at_L80 ts + count at_Stop_return ts = 1 /\
      count (has_returned Stop) ts = 0 /\
      running p = bool_decide (count at_L79 ts = 1) /\
      (count at_Stop_return ts = 1 -> count in_loop ts = 0)
  | Finished =>
      count at_L79 ts + count at_L80 ts + count at_Stop_return ts = 0 /\
      running p = false /\ count in_loop ts = 0
  end.

(** Number of times the flag goes from true to false along a list of
    observations. *)
Fixpoint flips (bs : list bool) : nat :=
  match bs with
  | b1 :: ((b2 :: _) as rest) =>
      (if b1 && negb b2 then 1 else 0) + flips rest
  | _ => 0
  end.

Definition observed_running (c : Config) : bool := IsRunning (prod (world c)).

(** How often the producer went from running to not running. *)
Definition stopped_times (c : Config) (sched : list nat) : nat :=
  flips (map observed_running (trace c sched)).

(** ** How many loops were started *)

(** Goroutine [i] is about to run line 49, the first line of
    [start]. *)
Definition enters_start (c : Config) (i : nat) : bool :=
  match threads c !! i with
  | Some t => at_L49 t
  | None => false
  end.

Fixpoint loops_started (c : Config) (sched : list nat) : nat :=
  match sched with
  | [] => 0
  | i :: rest =>
      (if enters_start c i then 1 else 0) + loops_started (sched_step c i) rest
  end.

(** After line 49 and before [Start] comes back. *)
Definition past_L49 (t : Thread) : bool :=
  at_L50 t || in_loop t || at_Start_return t.

(** The start guard and the goroutines agree. *)
Definition start_inv (c : Config) : Prop :=
  let ts := threads c in
  match startOnce (prod (world c)) with
  | Fresh => count at_L49 ts + count past_L49 ts = 0
  | Busy => count at_L49 ts + count past_L49 ts = 1
  | Finished => count at_L49 ts + count past_L49 ts = 0
  end.

(** Loops that can still be started. *)
Definition loops_to_start (c : Config) : nat :=
  match startOnce (prod (world c)) with
  | Fresh => 1
  | Busy => count at_L49 (threads c)
  | Finished => 0
  end.

(** A program that has not begun: a new producer (with the notifier
    the caller chose) and goroutines that have made no call yet. *)
Definition idle (t : Thread) : bool :=
  match at_pc t with None => true | Some _ => false end.

Definition initial (d : option (Job -> option error -> U -> U)) (q : Q)
    (n0 : Z) (u : U) (progs : list (list call)) : Config :=
  {| world := {| prod := set_Done d (NewProducer q); n := n0; user := u |};
     threads := map (fun cs => {| at_pc := None; todo := cs; returned := [] |}) progs |}.

(** ** A loop nobody can stop *)

(** The stop guard is used up while a goroutine iterates with the
    flag up. *)
Definition leaving (t : Thread) : bool :=
  match at_pc t with Some (start_deferred | Start_return) => true | _ => false end.

Definition unstoppable (c : Config) : Prop :=
  let p := prod (world c) in
  let ts := threads c in
  stopOnce p = Finished /\ running p = true /\
  count at_L79 ts = 0 /\
  1 <= count iterating ts /\
  startOnce p = Busy /\
  count leaving ts = 0 /\
  count (has_returned Start) ts = 0.

(** ** The producer seen without its notifier *)

(** Two worlds that differ at most in the notifier and in what the
    notifier did. *)
Definition same_producer (w1 w2 : World) : Prop :=
  queue (prod w1) = queue (prod w2) /\
  running (prod w1) = running (prod w2) /\
  startOnce (prod w1) = startOnce (prod w2) /\
  stopOnce (prod w1) = stopOnce (prod w2) /\
  wg (prod w1) = wg (prod w2) /\
  n w1 = n w2.

Definition same_behaviour (c1 c2 : Config) : Prop :=
  same_producer (world c1) (world c2) /\ threads c1 = threads c2.

(** The built-in source, called [k] times in a row. *)
Fixpoint nexts (k : nat) (n0 : Z) : list Job :=
  match k with
  | O => []
  | S k' => let '(n', j, _) := next n0 in j :: nexts k' n'
  end.

End Producer.

Arguments Producer : clear implicits.
Arguments World : clear implicits.
Arguments pc : clear implicits.
Arguments Thread : clear implicits.
Arguments Config : clear implicits.

(** * The life of a producer, from [NewProducer] on *)

Section Lifecycle.

Context {QJob Q U : Type}.
Variable NewJob : QJob.
Variable Encode : QJob -> Job -> QJob * option error.
Variable Publish : Q -> QJob -> Q * option error.

Definition at_Start_L40 (t : Thread QJob) : bool :=
  match at_pc t with Some Start_L40 => true | _ => false end.
Definition at_Stop_L45 (t : Thread QJob) : bool :=
  match at_pc t with Some Stop_L45 => true | _ => false end.
Definition at_deferred (t : Thread QJob) : bool :=
  match at_pc t with Some start_deferred => true | _ => false end.

(** The goroutine has a move to make. *)
Definition can_move (w : World Q U) (t : Thread QJob) : bool :=
  match thread_step NewJob Encode Publish w t with
  | Some _ => true
  | None => false
  end.

(** The goroutine is inside a call and cannot go on: it waits for a
    guard or for the wait group. *)
Definition waiting (w : World Q U) (t : Thread QJob) : bool :=
  negb (idle t) && negb (can_move w t).

(** Goroutines inside the body of [start], from line 49 to the moment
    the guard records the run. *)
Definition in_start (ts : list (Thread QJob)) : nat :=
  count at_L49 ts + count at_L50 ts + count iterating ts
  + count at_deferred ts + count at_Start_return ts.

(** Goroutines inside the body of [stop]. *)
Definition in_stop (ts : list (Thread QJob)) : nat :=
  count at_L79 ts + count at_L80 ts + count at_Stop_return ts.

(** What every run from a new producer keeps true: each guard is held
    by exactly the goroutine that runs its function; the wait group
    counts the goroutines between [Add] and [Done]; a raised flag means
    a goroutine at line 50 or in the loop; as long as [Stop] was never
    called the loop goes on and no [Start] has come back; a [start] on
    its way out, or over, means the flag is down. *)
Definition held (o : Once) : nat :=
  match o with Busy => 1 | _ => 0 end.

Definition life_inv (c : Config QJob Q U) : Prop :=
  let p := prod (world c) in
  let ts := threads c in
  in_start ts = held (startOnce p) /\
  in_stop ts = held (stopOnce p) /\
  wg p = Z.of_nat (count iterating ts + count at_deferred ts) /\
  (running p = true -> 1 <= count at_L50 ts + count iterating ts) /\
  (stopOnce p = Fresh ->
     count at_deferred ts + count at_Start_return ts = 0 /\
     startOnce p <> Finished /\
     (1 <= count at_L50 ts + count iterating ts -> running p = true)) /\
  (1 <= count at_deferred ts + count at_Start_return ts -> running p = false) /\
  (startOnce p = Finished -> running p = false) /\
  (1 <= count (has_returned Start) ts -> startOnce p = Finished) /\
  (1 <= count (has_returned Stop) ts -> stopOnce p = Finished).

(** Number of times line 79, the first line of [stop], is run. *)
Definition enters_stop (c : Config QJob Q U) (i : nat) : bool :=
  match threads c !! i with
  | Some t => at_L79 t
  | None => false
  end.

Fixpoint stops_run (c : Config QJob Q U) (sched : list nat) : nat :=
  match sched with
  | [] => 0
  | i :: rest =>
      (if enters_stop c i then 1 else 0)
      + stops_run (sched_step NewJob Encode Publish c i) rest
  end.

(** Runs of [stop] that can still begin. *)
Definition stops_to_run (c : Config QJob Q U) : nat :=
  match stopOnce (prod (world c)) with
  | Fresh => 1
  | Busy => count at_L79 (threads c)
  | Finished => 0
  end.

(** Number of times the flag goes from false to true along a list of
    observations. *)
Fixpoint rises (bs : list bool) : nat :=
  match bs with
  | b1 :: ((b2 :: _) as rest) =>
      (if negb b1 && b2 then 1 else 0) + rises rest
  | _ => 0
  end.

Definition started_times (c : Config QJob Q U) (sched : list nat) : nat :=
  rises (map observed_running (trace NewJob Encode Publish c sched)).

(** What the loop leaves alone while it finishes its round. *)
Definition same_control (w w' : World Q U) : Prop :=
  running (prod w') = running (prod w) /\
  wg (prod w') = wg (prod w) /\
  startOnce (prod w') = startOnce (prod w) /\
  stopOnce (prod w') = stopOnce (prod w) /\
  Notifiers_Done (prod w') = Notifiers_Done (prod w).

(** Within [k] moves of its own the goroutine stands at the deferred
    [wg.Done], and the world is [w']. *)
Definition leaves_within (k : nat) (w : World Q U) (t : Thread QJob) (w' : World Q U) : Prop :=
  exists k', k' <= k /\ thread_steps NewJob Encode Publish k' w t = Some (w', goto start_deferred t) /\ same_control w w'.

End Lifecycle.

(** * What a logging notifier sees *)

Section Ordered.

Context {QJob Q : Type}.

(** A callback that appends each call to a log. *)
Definition record_Done (j : Job) (err : option error)
    (log : list (Job * option error)) : list (Job * option error) :=
  log ++ [(j, err)].

(** The job a goroutine of the loop has pulled and not yet reported. *)
Definition holding (t : Thread QJob) : option Job :=
  match at_pc t with
  | Some (start_L58 j _ | start_L64 j | start_L69 j _ | start_notifyDone j _) => Some j
  | _ => None
  end.

Definition holds_job (t : Thread QJob) : bool :=
  match holding t with Some _ => true | None => false end.

(** The identifiers of the first [k] jobs after the counter value
    [n0]. *)
Definition ids_from (n0 : Z) (k : nat) : list Z :=
  map (fun i => wrap64 (n0 + Z.of_nat i + 1)) (seq 0 k).

Definition logged_ids (log : list (Job * option error)) : list Z :=
  map (fun e => RepositoryID (fst e)) log.

(** The log holds the jobs pulled so far, in the order they were
    pulled; the counter is ahead of the log by the one job in hand, if
    there is one, and that job carries the counter's value. *)
Definition order_inv (n0 : Z) (c : Config QJob Q (list (Job * option error))) : Prop :=
  let w := world c in
  let ts := threads c in
  let k := length (user w) in
  Notifiers_Done (prod w) = Some record_Done /\
  count holds_source_error ts = 0 /\
  start_inv c /\
  logged_ids (user w) = ids_from n0 k /\
  (count holds_job ts = 0 -> wrap64 (n w) = wrap64 (n0 + Z.of_nat k)) /\
  (forall i t j, ts !! i = Some t -> holding t = Some j ->
     RepositoryID j = n w /\ n w = wrap64 (n0 + Z.of_nat k + 1)).

End Ordered.

(** ** A small producer to run

    Jobs are encoded as their identifier, except that identifiers
    divisible by five do not encode; the queue is a list that takes
    two messages and then refuses; the notifier keeps a log of its
    calls. *)
Module Demo.

Definition QJob := option Z.
Definition Q := list QJob.
Definition U := list (Job * option error).

Definition NewJob : QJob := None.

Definition Encode (job : QJob) (j : Job) : QJob * option error :=
  if decide (RepositoryID j mod 5 = 0)%Z
  then (job, Some "cannot encode"%string)
  else (Some (RepositoryID j), None).

Definition Publish (q : Q) (job : QJob) : Q * option error :=
  if decide (length q < 2) then (q ++ [job], None)
  else (q, Some "queue is full"%string).

Definition log_Done (j : Job) (err : option error) (u : U) : U := u ++ [(j, err)].

Definition step := thread_step (U:=U) NewJob Encode Publish.
Definition steps := thread_steps (U:=U) NewJob Encode Publish.
Definition exec := run (U:=U) NewJob Encode Publish.

(** One goroutine calls [Start], another calls [Stop] twice. *)
Definition start_then_stop : Config QJob Q U :=
  initial (Some log_Done) [] 0 [] [[Start; Start]; [Stop; Stop]].

(** [Start] has reached the head of the loop: the call, the guard,
    line 49 and line 50. *)
Definition looping : Config QJob Q U := exec start_then_stop [0; 0; 0; 0]%nat.

(** One goroutine calls [Stop] and then [Start]; another one calls
    [Stop] afterwards. *)
Definition stop_then_start : Config QJob Q U :=
  initial (Some log_Done) [] 0 [] [[Stop; Start]; [Stop; Stop]].

(** A goroutine at line 58 with the error [e] in hand. *)
Definition with_source_error (e : error) : Thread QJob :=
  {| at_pc := Some (start_L58 {| RepositoryID := 7 |} (Some e));
     todo := []; returned := [] |}.

Definition a_world (d : option (Job -> option error -> U -> U)) : World Q U :=
  {| prod := set_running true (set_Done d (NewProducer []));
     n := 7; user := [] |}.

(** A schedule that stops the loop of [looping]: [Stop] is called
    and waits at line 80, [Start] sees the flag, runs its deferred
    [wg.Done], returns and is called again, [Stop] returns, and then
    the second [Stop] and the second [Start] find their guards
    used. *)
Definition stopping_schedule : list nat :=
  [1; 1; 1; 1; 0; 0; 0; 0; 1; 1; 1; 1; 0; 0].

(** A goroutine at line 64 with the job [id] it has pulled. *)
Definition with_job (id : Z) : Thread QJob :=
  {| at_pc := Some (start_L64 {| RepositoryID := id |}); todo := []; returned := [] |}.

(** A world whose queue already holds [q]. *)
Definition a_world_with (q : Q) : World Q U :=
  {| prod := set_queue q (set_running true (set_Done (Some log_Done) (NewProducer [])));
     n := 7; user := [] |}.

(** The program of [start_then_stop] with no callback installed. *)
Definition silent : Config QJob Q U :=
  initial None [] 0 [] [[Start; Start]; [Stop; Stop]].

(** Three iterations of the loop, then the stop of
    [stopping_schedule]. *)
Definition three_rounds : list nat :=
  [0; 0; 0; 0] ++ replicate 18 0 ++ stopping_schedule.

End Demo.

(** * The consumer command: [cli/borges/consumer.go] *)

Module Consumer.

(** A Go result [(value, error)]. *)
Inductive result (A : Type) : Type :=
| Ok (a : A)
| Err (e : error).
Arguments Ok {A} a.
Arguments Err {A} e.

(** [strings.HasPrefix]: [len(s) >= len(prefix)] and the first
    [len(prefix)] bytes of [s] are [prefix]. *)
Definition HasPrefix (s prefix : string) : bool :=
  (String.length prefix <=? String.length s)%nat
  && String.eqb (String.substring 0 (String.length prefix) s) prefix.

(** [type consumerSubcmd struct], the embedded [command] left out. *)
Record consumerSubcmd := {
  Locking : string;
  Workers : Z;
  Timeout : string;
  RootRepositoriesDir : string;
  RootRepositoriesTempDir : string;
  BucketSize : Z;
  TempDir : string;
  CleanTempDir : bool
}.

Section Transactioner.

(** [billy.Filesystem] and [url.URL] come from libraries: what the
    command calls on them is taken as given. *)
Context {Filesystem URL : Type}.
Variable Chroot : Filesystem -> string -> result Filesystem.
Variable osfs_New : string -> Filesystem.
Variable url_Parse : string -> result URL.
Variable url_Path : URL -> string.
Variable url_set_Path : string -> URL -> URL.
Variable url_String : URL -> string.

(** [repository.Fs], by the constructor that made it. *)
Inductive Fs :=
| NewHDFSFs (base path tmp : string)
| NewLocalFs (fs : Filesystem).

(** [repository.NewCopier(local, remote, bucket)] and
    [repository.NewSivaRootedTransactioner(copier)] keep what they
    are given. *)
Record Copier := NewCopier {
  copier_local : Filesystem;
  copier_remote : Fs;
  copier_bucket : Z
}.

Inductive RootedTransactioner :=
| NewSivaRootedTransactioner (copier : Copier).

(** Lines 157 to 174: [var remote repository.Fs] and the [if] that
    fills it, or returns the error of [url.Parse]. *)
Definition remote_backend (c : consumerSubcmd) : result Fs :=
  if HasPrefix (RootRepositoriesDir c) "hdfs://" then
    match url_Parse (RootRepositoriesDir c) with
    | Err e => Err e
    | Ok u =>
        let path := url_Path u in
        let u := url_set_Path "" u in
        Ok (NewHDFSFs (url_String u) path (RootRepositoriesTempDir c))
    end
  else Ok (NewLocalFs (osfs_New (RootRepositoriesDir c))).

(** [func (c *consumerSubcmd) newRootedTransactioner]. *)
Definition newRootedTransactioner (c : consumerSubcmd) (tmp : Filesystem)
    : result RootedTransactioner :=
  match Chroot tmp "transactioner" with
  | Err e => Err e
  | Ok tmp =>
      match remote_backend c with
      | Err e => Err e
      | Ok remote =>
          Ok (NewSivaRootedTransactioner (NewCopier tmp remote (BucketSize c)))
      end
  end.

(** The one backend a transactioner carries. *)
Definition backend (txer : RootedTransactioner) : Fs :=
  match txer with NewSivaRootedTransactioner copier => copier_remote copier end.

Definition is_hdfs (fs : Fs) : bool :=
  match fs with NewHDFSFs _ _ _ => true | NewLocalFs _ => false end.

End Transactioner.

Arguments Fs : clear implicits.
Arguments Copier : clear implicits.
Arguments RootedTransactioner : clear implicits.

End Consumer.

(** * The repository lock and the workers that take it *)

Module Lock.

(** Modelled from the spec: the key of a lock handle, which the data
    model gives as ["repo:" + repositoryID]; the [lock] package and
    the worker pool that builds the key are not in the sources at
    hand. *)
Definition lock_key (repositoryID : string) : string := "repo:" +:+ repositoryID.

(** Modelled from the spec: the lock service of section 4.3, whose
    package [lock] is missing.  The table says which worker holds the
    handle of which key.  [Acquire] fails when the key is already
    held and otherwise hands the key to the caller; [Release] gives
    it back. *)
Definition Acquire (locks : gmap string nat) (key : string) (i : nat)
    : option (gmap string nat) :=
  match locks !! key with
  | Some _ => None
  | None => Some (<[key:=i]> locks)
  end.

Definition Release (locks : gmap string nat) (key : string) : gmap string nat :=
  delete key locks.

(** Modelled from the spec: a worker of section 4.2 (the worker pool
    is missing too).  It is idle, or inside the unit of work of one
    repository (cloning, then in its transaction), or its process has
    died. *)
Inductive phase := Cloning | Transacting.

Inductive worker :=
| Idle
| Working (repositoryID : string) (ph : phase)
| Dead.

Record Fleet := {
  locks : gmap string nat;
  workers : list worker
}.

(** Modelled from the spec: what can happen in the fleet.  A job is
    delivered to a worker; a unit of work moves on; it ends (commit,
    failure or deadline: the handle is released in all cases); a
    process dies with what it holds; the lock of a dead owner
    expires. *)
Inductive event :=
| Deliver (i : nat) (repositoryID : string)
| Advance (i : nat)
| Finish (i : nat)
| Crash (i : nat)
| Expire (key : string).

Definition fleet_step (s : Fleet) (ev : event) : Fleet :=
  match ev with
  | Deliver i id =>
      match workers s !! i with
      | Some Idle =>
          match Acquire (locks s) (lock_key id) i with
          | Some locks' =>
              {| locks := locks';
                 workers := <[i:=Working id Cloning]> (workers s) |}
          | None => s
          end
      | _ => s
      end
  | Advance i =>
      match workers s !! i with
      | Some (Working id Cloning) =>
          {| locks := locks s; workers := <[i:=Working id Transacting]> (workers s) |}
      | _ => s
      end
  | Finish i =>
      match workers s !! i with
      | Some (Working id _) =>
          {| locks := Release (locks s) (lock_key id);
             workers := <[i:=Idle]> (workers s) |}
      | _ => s
      end
  | Crash i =>
      {| locks := locks s; workers := <[i:=Dead]> (workers s) |}
  | Expire key =>
      match locks s !! key with
      | Some i =>
          match workers s !! i with
          | Some Dead => {| locks := Release (locks s) key; workers := workers s |}
          | _ => s
          end
      | None => s
      end
  end.

Definition fleet_run (s : Fleet) (evs : list event) : Fleet :=
  fold_left fleet_step evs s.

(** [k] idle workers and no lock held. *)
Definition fleet_start (k : nat) : Fleet :=
  {| locks := ∅; workers := replicate k Idle |}.

(** Worker [i] holds the handle of [key]: it is inside the unit of
    work of a repository with that key. *)
Definition holds_handle (s : Fleet) (i : nat) (key : string) : Prop :=
  exists id ph, workers s !! i = Some (Working id ph) /\ key = lock_key id.

(** Every worker inside a unit of work is the owner the table names
    for its key. *)
Definition lock_inv (s : Fleet) : Prop :=
  forall i id ph,
    workers s !! i = Some (Working id ph) -> locks s !! lock_key id = Some i.

(** Three workers, two jobs for the repository ["R1"] and one for
    ["R2"]: worker 0 takes ["R1"], worker 1 is refused, worker 2
    takes ["R2"], worker 0 finishes and worker 1 gets ["R1"] on
    redelivery. *)
Definition contention : list event :=
  [Deliver 0 "R1"; Deliver 1 "R1"; Deliver 2 "R2"; Advance 0;
   Finish 0; Deliver 1 "R1"].

End Lock.

(** * Facts about the producer *)

Lemma returned_same (c0 : call) (l : list call) : bool_decide (c0 ∈ l ++ [c0]) = true.
Proof.
  apply bool_decide_eq_true_2, elem_of_app. right.
  apply list_elem_of_singleton. reflexivity.
Qed.

Lemma returned_other (c0 c1 : call) (l : list call) :
  c0 <> c1 -> bool_decide (c0 ∈ l ++ [c1]) = bool_decide (c0 ∈ l).
Proof.
  intros Hne. apply bool_decide_ext.
  rewrite elem_of_app, list_elem_of_singleton. tauto.
Qed.

Section ProducerFacts.

Context {QJob Q U : Type}.
Variable NewJob : QJob.
Variable Encode : QJob -> Job -> QJob * option error.
Variable Publish : Q -> QJob -> Q * option error.

Local Abbreviation step := (thread_step (U:=U) NewJob Encode Publish).
Local Abbreviation steps := (thread_steps (U:=U) NewJob Encode Publish).
Local Abbreviation sstep := (sched_step (U:=U) NewJob Encode Publish).
Local Abbreviation exec := (run (U:=U) NewJob Encode Publish).
Local Abbreviation visited := (trace (U:=U) NewJob Encode Publish).

Implicit Types (w : World Q U) (t : Thread QJob) (c : Config QJob Q U).
Implicit Types (j : Job) (e : error) (err : option error).

(** ** The built-in source *)

Lemma wrap64_range z : (0 <= wrap64 z < uint64_mod)%Z.
Proof. unfold wrap64, uint64_mod. apply Z.mod_pos_bound. lia. Qed.

Lemma wrap64_small z : (0 <= z < uint64_mod)%Z -> wrap64 z = z.
Proof. intros Hz. unfold wrap64. apply Z.mod_small. exact Hz. Qed.

Lemma wrap64_succ z : wrap64 (wrap64 z + 1) = wrap64 (z + 1).
Proof. unfold wrap64. apply Zplus_mod_idemp_l. Qed.

Lemma nexts_lookup k : forall n0 i,
  (i < k)%nat ->
  nexts k n0 !! i = Some {| RepositoryID := wrap64 (n0 + Z.of_nat i + 1) |}.
Proof.
  induction k as [|k IH]; intros n0 i Hi; [lia|].
  destruct i as [|i]; simpl.
  - f_equal. f_equal. f_equal. lia.
  - rewrite IH by lia. f_equal. f_equal.
    replace (wrap64 (n0 + 1) + Z.of_nat i + 1)%Z
      with (wrap64 (n0 + 1) + (Z.of_nat i + 1))%Z by lia.
    unfold wrap64. rewrite Zplus_mod_idemp_l. f_equal. lia.
Qed.

(** Line 57 always ends on line 58 with a nil error. *)
Lemma step_L57 w t :
  at_pc t = Some start_L57 ->
  step w t =
    Some ({| prod := prod w; n := wrap64 (n w + 1); user := user w |},
          goto (start_L58 {| RepositoryID := wrap64 (n w + 1) |} None) t).
Proof. intros Hpc. unfold thread_step. rewrite Hpc. reflexivity. Qed.


(** ** Counting goroutines *)

Lemma count_insert (f : Thread QJob -> bool) ts i t t' b b' :
  ts !! i = Some t -> f t = b -> f t' = b' ->
  count f (<[i:=t']> ts) + (if b then 1 else 0)
  = count f ts + (if b' then 1 else 0).
Proof.
  intros Hi <- <-. revert i Hi.
  induction ts as [|x ts IH]; intros [|i] Hi; simplify_eq/=.
  - unfold count. simpl. lia.
  - specialize (IH _ Hi). unfold count in *. simpl. lia.
Qed.

Lemma count_cons (f : Thread QJob -> bool) t ts :
  count f (t :: ts) = (if f t then 1 else 0) + count f ts.
Proof. reflexivity. Qed.

Lemma count_zero (f : Thread QJob -> bool) ts i t :
  count f ts = 0 -> ts !! i = Some t -> f t = false.
Proof.
  intros Hz Hi.
  assert (Hin : t ∈ ts) by (apply list_elem_of_lookup; eauto).
  pose proof (sum_list_with_in t (fun t => if f t then 1 else 0) ts Hin) as Hle.
  unfold count in Hz. cbv beta in Hle.
  destruct (f t); [lia | reflexivity].
Qed.

Lemma count_pos (f : Thread QJob -> bool) ts t :
  t ∈ ts -> f t = true -> 1 <= count f ts.
Proof.
  intros Hin Hf.
  pose proof (sum_list_with_in t (fun t => if f t then 1 else 0) ts Hin) as Hle.
  cbv beta in Hle. rewrite Hf in Hle. exact Hle.
Qed.


(** The value of a position test on a goroutine whose line is
    known. *)
Ltac position Hpc :=
  cbv beta delta [at_L49 at_L50 in_loop iterating at_Start_return at_L79
                  at_L80 at_Stop_return past_L49 has_returned
                  holds_source_error idle leaving];
  cbn [goto ret at_pc returned todo];
  rewrite ?Hpc; simpl; reflexivity.

(** How the number of goroutines that satisfy [f] changes when the
    goroutine of [Hi], at the line of [Hpc], becomes [t']. *)
Local Tactic Notation "track" uconstr(f) hyp(Hi) hyp(Hpc) constr(t') :=
  let H := fresh "Hcount" in
  pose proof (count_insert f _ _ _ t' _ _ Hi
                ltac:(position Hpc) ltac:(position Hpc)) as H;
  rewrite ?returned_same, ?returned_other in H by discriminate;
  cbv beta iota in H.

(** All the moves a goroutine can make, one goal per line of
    [producer.go]. *)
Ltac by_line Hs Hpc :=
  unfold thread_step, next in Hs;
  match type of Hs with
  | context [at_pc ?t] => destruct (at_pc t) as [[]|] eqn:Hpc
  end;
  repeat match type of Hs with
    | context [match ?x with _ => _ end] => destruct x eqn:?
    | (let '(_, _) := ?x in _) = _ => destruct x eqn:?
    end;
  simplify_eq/=;
  try match goal with c0 : call |- _ => destruct c0 end.

Lemma stop_inv_step w ts i t w' t' :
  ts !! i = Some t ->
  step w t = Some (w', t') ->
  stop_inv {| world := w; threads := ts |} ->
  stop_inv {| world := w'; threads := <[i:=t']> ts |}.
Proof.
  intros Hi Hs Hinv.
  by_line Hs Hpc.
  all: unfold stop_inv in *; simpl in *.
  all: match goal with |- context [<[_ := ?t']> _] =>
         track at_L49 Hi Hpc t'; track at_L50 Hi Hpc t';
         track in_loop Hi Hpc t'; track at_L79 Hi Hpc t';
         track at_L80 Hi Hpc t'; track at_Stop_return Hi Hpc t';
         track (has_returned Stop) Hi Hpc t'
       end.
  all: match type of Hinv with
       | context [stopOnce ?p] => destruct (stopOnce p) eqn:Hso
       end; simpl in *; try discriminate.
  all: repeat case_bool_decide.
  all: try (destruct (bool_decide (Stop ∈ returned t))).
  all: intuition (try congruence; lia).
Qed.

(** Lifting a fact about one move to the scheduler. *)
Lemma sched_step_cases c i :
  sstep c i = c \/
  exists t w' t',
    threads c !! i = Some t /\ step (world c) t = Some (w', t') /\
    sstep c i = {| world := w'; threads := <[i:=t']> (threads c) |}.
Proof.
  unfold sched_step.
  destruct (threads c !! i) as [t|] eqn:Hi; [|left; reflexivity].
  destruct (step (world c) t) as [[w' t']|] eqn:Hs; [|left; reflexivity].
  right. exists t, w', t'. auto.
Qed.

Lemma stop_inv_sched_step c i : stop_inv c -> stop_inv (sstep c i).
Proof.
  intros Hinv.
  destruct (sched_step_cases c i) as [-> | (t & w' & t' & Hi & Hs & ->)]; [exact Hinv|].
  destruct c as [w ts]. eapply stop_inv_step; eauto.
Qed.

Lemma stop_inv_run sched : forall c, stop_inv c -> stop_inv (exec c sched).
Proof.
  induction sched as [|i sched IH]; intros c Hinv; [exact Hinv|].
  simpl. apply IH, stop_inv_sched_step, Hinv.
Qed.

Lemma LoopRunning_stop_inv c : LoopRunning c -> stop_inv c.
Proof.
  intros [H1 H2 H3 H4 H5 H6 H7 H8]. unfold stop_inv.
  rewrite H1, H2, H3, H4, H5. repeat split; try lia; try congruence.
Qed.

(** Once the flag is down nobody puts it up again: line 49 is the
    only line that does, and nobody is there. *)
Lemma flag_stays_down_step w ts i t w' t' :
  ts !! i = Some t ->
  step w t = Some (w', t') ->
  stop_inv {| world := w; threads := ts |} ->
  running (prod w) = false -> running (prod w') = false.
Proof.
  intros Hi Hs (_ & Hpre & _) Hdown. simpl in Hpre.
  assert (Hno : at_L49 t = false) by (eapply count_zero; [|exact Hi]; lia).
  by_line Hs Hpc; try assumption; try reflexivity.
  unfold at_L49 in Hno. rewrite Hpc in Hno. discriminate.
Qed.

Lemma flag_stays_down_sched_step c i :
  stop_inv c -> observed_running c = false -> observed_running (sstep c i) = false.
Proof.
  intros Hinv Hdown.
  destruct (sched_step_cases c i) as [-> | (t & w' & t' & Hi & Hs & ->)]; [exact Hdown|].
  destruct c as [w ts]. eapply flag_stays_down_step; eauto.
Qed.

Lemma flag_stays_down_run sched : forall c,
  stop_inv c -> observed_running c = false -> observed_running (exec c sched) = false.
Proof.
  induction sched as [|i sched IH]; intros c Hinv Hdown; [exact Hdown|].
  simpl. apply IH; [apply stop_inv_sched_step | apply flag_stays_down_sched_step]; assumption.
Qed.

Lemma trace_head c sched : exists rest, visited c sched = c :: rest.
Proof. destruct sched; simpl; eauto. Qed.

Lemma stopped_times_run sched : forall c,
  stop_inv c ->
  stopped_times NewJob Encode Publish c sched
  = if observed_running c && negb (observed_running (exec c sched)) then 1 else 0.
Proof.
  induction sched as [|i sched IH]; intros c Hinv.
  - unfold stopped_times. simpl. destruct (observed_running c); reflexivity.
  - pose proof (stop_inv_sched_step c i Hinv) as Hinv'.
    specialize (IH _ Hinv'). unfold stopped_times in *. simpl.
    destruct (trace_head (sstep c i) sched) as [rest Hrest].
    rewrite Hrest in *. simpl in *. rewrite IH.
    destruct (observed_running c) eqn:Hb.
    + destruct (observed_running (sstep c i)) eqn:Hb'; simpl; [reflexivity|].
      rewrite (flag_stays_down_run sched _ Hinv' Hb'). reflexivity.
    + rewrite (flag_stays_down_sched_step c i Hinv Hb). reflexivity.
Qed.



(** ** Stop *)

(** X12.  Take a program whose publish loop is running (a goroutine
    is past [p.wg.Add(1)], the flag is up, the wait group is at one)
    and in which [Stop] has not been called yet, and let the
    goroutines move in any order, with any number of calls of [Stop]
    among them.  Then
    (1) whenever some call of [Stop] has returned, the body of
    [start] is over (its deferred [wg.Done] included) and
    [IsRunning] answers false; (2) the producer went from running to
    not running once if the flag is down at the end and never
    otherwise, so exactly once as soon as a [Stop] has returned;
    (3) a call of [Stop] that finds the guard used returns without
    touching anything, and one that finds it held waits. *)
Theorem Stop_waits_for_the_loop c sched :
  LoopRunning c ->
  let c' := exec c sched in
  (forall t, t ∈ threads c' -> Stop ∈ returned t ->
     loop_exited c' /\ IsRunning (prod (world c')) = false /\
     stopped_times NewJob Encode Publish c sched = 1) /\
  stopped_times NewJob Encode Publish c sched
    = (if IsRunning (prod (world c')) then 0 else 1) /\
  (forall w t, at_pc t = Some Stop_L45 ->
     (stopOnce (prod w) = Finished -> step w t = Some (w, ret Stop t)) /\
     (stopOnce (prod w) = Busy -> step w t = None)).
Proof.
  intros Hrun c'.
  pose proof (LoopRunning_stop_inv c Hrun) as Hinv.
  pose proof (stop_inv_run sched c Hinv) as Hinv'. fold c' in Hinv'.
  assert (Htimes : stopped_times NewJob Encode Publish c sched
                   = if IsRunning (prod (world c')) then 0 else 1).
  { rewrite (stopped_times_run sched c Hinv).
    unfold observed_running at 1. unfold IsRunning at 1.
    rewrite (lr_running c Hrun). fold c'. unfold observed_running.
    destruct (IsRunning (prod (world c'))); reflexivity. }
  split; [|split; [exact Htimes|]].
  - intros t Hin Hret.
    assert (Hpos : 1 <= count (has_returned Stop) (threads c')).
    { eapply count_pos; [exact Hin|]. apply bool_decide_eq_true_2, Hret. }
    destruct Hinv' as (_ & Hpre & _ & Hcase).
    assert (Hdown : loop_exited c' /\ IsRunning (prod (world c')) = false).
    { unfold loop_exited, IsRunning.
      destruct (stopOnce (prod (world c'))); intuition lia. }
    destruct Hdown as [Hex Hdown]. repeat split; try assumption.
    rewrite Htimes, Hdown. reflexivity.
  - intros w t Hpc. unfold thread_step. rewrite Hpc.
    split; intros ->; reflexivity.
Qed.


(** ** Start *)

Lemma start_inv_step w ts i t w' t' :
  ts !! i = Some t ->
  step w t = Some (w', t') ->
  start_inv {| world := w; threads := ts |} ->
  start_inv {| world := w'; threads := <[i:=t']> ts |} /\
  (if at_L49 t then 1 else 0)
    + loops_to_start {| world := w'; threads := <[i:=t']> ts |}
  = loops_to_start {| world := w; threads := ts |}.
Proof.
  intros Hi Hs Hinv.
  assert (Hat : at_L49 t = match at_pc t with Some start_L49 => true | _ => false end)
    by reflexivity.
  by_line Hs Hpc.
  all: unfold start_inv, loops_to_start in *; simpl in *.
  all: rewrite Hat; clear Hat.
  all: match goal with |- context [<[_ := ?t']> _] =>
         track at_L49 Hi Hpc t'; track past_L49 Hi Hpc t'
       end.
  all: match type of Hinv with
       | context [startOnce ?p] => destruct (startOnce p) eqn:Hso
       end; simpl in *; try discriminate.
  all: lia.
Qed.

Lemma start_inv_sched_step c i :
  start_inv c ->
  start_inv (sstep c i) /\
  (if enters_start c i then 1 else 0) + loops_to_start (sstep c i)
  = loops_to_start c.
Proof.
  intros Hinv. unfold enters_start, sched_step.
  destruct (threads c !! i) as [t|] eqn:Hi; [|split; [exact Hinv|reflexivity]].
  destruct (step (world c) t) as [[w' t']|] eqn:Hs.
  - destruct c as [w ts]. eapply start_inv_step; eauto.
  - split; [exact Hinv|].
    destruct (at_L49 t) eqn:Hat; [|reflexivity].
    exfalso. unfold at_L49 in Hat. unfold thread_step in Hs.
    destruct (at_pc t) as [[]|]; discriminate.
Qed.

Lemma loops_started_run sched : forall c,
  start_inv c ->
  loops_started NewJob Encode Publish c sched + loops_to_start (exec c sched)
  = loops_to_start c.
Proof.
  induction sched as [|i sched IH]; intros c Hinv; [reflexivity|].
  destruct (start_inv_sched_step c i Hinv) as [Hinv' Hone].
  specialize (IH _ Hinv'). simpl. lia.
Qed.

Lemma count_initial_zero (f : Thread QJob -> bool) (progs : list (list call)) :
  (forall cs, f {| at_pc := None; todo := cs; returned := [] |} = false) ->
  count f (map (fun cs => {| at_pc := None; todo := cs; returned := [] |}) progs) = 0.
Proof.
  intros Hf. induction progs as [|cs progs IH]; [reflexivity|].
  unfold count in *. simpl. rewrite Hf, IH. reflexivity.
Qed.

Lemma initial_start_inv d (q : Q) n0 (u : U) progs :
  start_inv (initial (QJob:=QJob) d q n0 u progs).
Proof.
  unfold start_inv, initial. simpl.
  rewrite !count_initial_zero by reflexivity. reflexivity.
Qed.


(** C6.  [Start] is one-shot.  A call of [Start] that finds the
    guard used returns and leaves the producer, the counter and the
    notifier's state exactly as they were; one that finds the guard
    held by a running [start] waits without touching anything.  And
    in every run of every program on a new producer, line 49, the
    first line of [start], is executed at most once: once exactly
    when the guard is no longer fresh and nobody stands at line
    49. *)
Theorem Start_is_one_shot :
  (forall w t, at_pc t = Some Start_L40 ->
     (startOnce (prod w) = Finished -> step w t = Some (w, ret Start t)) /\
     (startOnce (prod w) = Busy -> step w t = None)) /\
  (forall d (q : Q) n0 (u : U) progs sched,
     let c := initial d q n0 u progs in
     loops_started NewJob Encode Publish c sched <= 1 /\
     loops_started NewJob Encode Publish c sched
       + loops_to_start (exec c sched) = 1).
Proof.
  split.
  - intros w t Hpc. unfold thread_step. rewrite Hpc.
    split; intros ->; reflexivity.
  - intros d q n0 u progs sched c.
    pose proof (loops_started_run sched c (initial_start_inv d q n0 u progs)) as H.
    change (loops_to_start c) with 1 in H. lia.
Qed.

(** ** Stop before Start *)

Lemma unstoppable_step w ts i t w' t' :
  ts !! i = Some t ->
  step w t = Some (w', t') ->
  unstoppable {| world := w; threads := ts |} ->
  unstoppable {| world := w'; threads := <[i:=t']> ts |}.
Proof.
  intros Hi Hs Hinv.
  by_line Hs Hpc.
  all: unfold unstoppable in *; simpl in *.
  all: match goal with |- context [<[_ := ?t']> _] =>
         track at_L79 Hi Hpc t'; track iterating Hi Hpc t';
         track leaving Hi Hpc t'; track (has_returned Start) Hi Hpc t'
       end.
  all: intuition (try congruence; lia).
Qed.

Lemma unstoppable_sched_step c i : unstoppable c -> unstoppable (sstep c i).
Proof.
  intros Hinv.
  destruct (sched_step_cases c i) as [-> | (t & w' & t' & Hi & Hs & ->)]; [exact Hinv|].
  destruct c as [w ts]. eapply unstoppable_step; eauto.
Qed.

Lemma unstoppable_run sched : forall c, unstoppable c -> unstoppable (exec c sched).
Proof.
  induction sched as [|i sched IH]; intros c Hinv; [exact Hinv|].
  simpl. apply IH, unstoppable_sched_step, Hinv.
Qed.

Lemma run_app c s1 s2 : exec c (s1 ++ s2) = exec (exec c s1) s2.
Proof. unfold run. apply fold_left_app. Qed.

Lemma count_le (f g : Thread QJob -> bool) ts :
  (forall t, f t = true -> g t = true) -> count f ts <= count g ts.
Proof.
  intros Hfg. induction ts as [|t ts IH]; [reflexivity|].
  unfold count in *. simpl. specialize (Hfg t).
  destruct (f t), (g t); try lia; specialize (Hfg eq_refl); discriminate.
Qed.

Lemma unstoppable_never_exits c : unstoppable c -> ~ loop_exited c.
Proof.
  intros (_ & _ & _ & Hit & _) Hex. unfold loop_exited in Hex.
  assert (count iterating (threads c) <= count in_loop (threads c)).
  { apply count_le. intros t. unfold iterating, in_loop.
    destruct (at_pc t) as [[]|]; auto. }
  lia.
Qed.


(** C2, on the code.  One goroutine calls [Stop] and then [Start];
    the other goroutines are free to call whatever they like, [Stop]
    included, as often as they like.  Once the first goroutine has
    made its nine moves ([Stop] has returned, [Start] stands at the
    head of the loop), whatever the schedule afterwards: the flag is
    up, the stop guard is used up, the loop has not exited and no
    call of [Start] has returned. *)
Theorem Stop_before_Start_cannot_be_stopped
    d (q : Q) n0 (u : U) (others : list (list call)) sched :
  let c0 := initial d q n0 u ([Stop; Start] :: others) in
  let c := exec c0 (replicate 9 0 ++ sched) in
  (exists t, threads c !! 0 = Some t /\ Stop ∈ returned t) /\
  IsRunning (prod (world c)) = true /\
  stopOnce (prod (world c)) = Finished /\
  ~ loop_exited c /\
  (forall t, t ∈ threads c -> Start ∉ returned t).
Proof.
  intros c0 c. unfold c. rewrite run_app.
  set (c9 := exec c0 (replicate 9 0)).
  assert (H9 : c9 =
    {| world := {| prod := set_wg 1 (set_running true (set_startOnce Busy
                     (set_stopOnce Finished (set_Done d (NewProducer q)))));
                   n := n0; user := u |};
       threads := {| at_pc := Some start_L53; todo := []; returned := [Stop] |}
                  :: map (fun cs => {| at_pc := None; todo := cs; returned := [] |})
                       others |}) by reflexivity.
  assert (Hun : unstoppable c9).
  { rewrite H9. unfold unstoppable. cbn [world threads prod].
    rewrite !count_cons, !count_initial_zero by reflexivity.
    repeat split; try reflexivity; simpl; lia. }
  pose proof (unstoppable_run sched c9 Hun) as Hfin.
  assert (Hkeep : forall s c1, (exists t, threads c1 !! 0 = Some t /\ Stop ∈ returned t) ->
            exists t, threads (exec c1 s) !! 0 = Some t /\ Stop ∈ returned t).
  { clear. induction s as [|i s IH]; intros c1 Hc1; [exact Hc1|].
    simpl. apply IH. destruct Hc1 as (t & Ht & Hret).
    destruct (sched_step_cases c1 i) as [-> | (t1 & w' & t' & Hi & Hs & ->)]; [eauto|].
    simpl. destruct (decide (i = 0)) as [->|Hne].
    - rewrite Ht in Hi. simplify_eq. exists t'. split.
      + apply list_lookup_insert_eq. eapply lookup_lt_Some; eauto.
      + by_line Hs Hpc; simpl; try assumption; apply elem_of_app; auto.
    - exists t. rewrite list_lookup_insert_ne by exact Hne. auto. }
  split; [apply Hkeep; rewrite H9; simpl; eexists; split; [reflexivity|set_solver]|].
  destruct Hfin as (Hstop & Hrun & _ & Hit & _ & _ & Hret).
  repeat split; try assumption.
  - apply unstoppable_never_exits, unstoppable_run, Hun.
  - intros t Hin HS.
    assert (1 <= count (has_returned Start) (threads (exec c9 sched))).
    { eapply count_pos; [exact Hin|]. apply bool_decide_eq_true_2, HS. }
    lia.
Qed.


(** ** One iteration of the loop *)

(** Only line 79, in [stop], brings the flag down. *)
Lemma flag_down_only_at_L79 w t w' t' :
  step w t = Some (w', t') ->
  running (prod w) = true -> running (prod w') = false ->
  at_pc t = Some stop_L79.
Proof.
  intros Hs Hup Hdown. by_line Hs Hpc; try congruence; reflexivity.
Qed.

(** C4.  A goroutine that stands at line 58 with a non-nil error
    goes back to the head of the loop and nothing else changes: the
    queue, the counter, the flag and the notifier's state are the
    ones it found, so nothing was encoded, published or notified.
    With the flag up the move after that is the next call of the
    source.  And the flag only ever goes down on line 79, inside
    [Stop]. *)
Theorem source_error_is_not_fatal w t j e :
  at_pc t = Some (start_L58 j (Some e)) ->
  step w t = Some (w, goto start_L53 t) /\
  (running (prod w) = true -> steps 2 w t = Some (w, goto start_L57 t)) /\
  (forall w0 t0 w1 t1,
     step w0 t0 = Some (w1, t1) ->
     running (prod w0) = true -> running (prod w1) = false ->
     at_pc t0 = Some stop_L79).
Proof.
  intros Hpc.
  assert (H1 : step w t = Some (w, goto start_L53 t)).
  { unfold thread_step. rewrite Hpc. reflexivity. }
  split; [exact H1|split].
  - intros Hrun. simpl. rewrite H1. unfold thread_step. simpl.
    rewrite Hrun. reflexivity.
  - intros w0 t0 w1 t1. apply flag_down_only_at_L79.
Qed.

(** C5.  A goroutine that stands at line 64 with the job [j] it
    pulled.  If [Encode] fails, two moves bring it back to the head
    of the loop, the queue is untouched and [notifyDone] has run
    once, on [j] and the encoding error.  If [Encode] succeeds,
    three moves bring it back, the queue is the one [Publish] left
    and [notifyDone] has run once, on [j] and whatever [Publish]
    returned: its error, or nil.  With a callback [f] installed
    [notifyDone] is one call of [f]. *)
Theorem publish_outcomes w t j :
  at_pc t = Some (start_L64 j) ->
  (forall job e,
     Encode NewJob j = (job, Some e) ->
     steps 2 w t =
       Some ({| prod := prod w; n := n w;
                user := notifyDone (prod w) j (Some e) (user w) |},
             goto start_L53 t)) /\
  (forall job q' err,
     Encode NewJob j = (job, None) ->
     Publish (queue (prod w)) job = (q', err) ->
     steps 3 w t =
       Some ({| prod := set_queue q' (prod w); n := n w;
                user := notifyDone (prod w) j err (user w) |},
             goto start_L53 t)) /\
  (forall f err u,
     Notifiers_Done (prod w) = Some f ->
     notifyDone (prod w) j err u = f j err u).
Proof.
  intros Hpc. repeat split.
  - intros job e He. simpl. unfold thread_step at 1. rewrite Hpc, He.
    reflexivity.
  - intros job q' err He Hp. simpl. unfold thread_step at 1. rewrite Hpc, He.
    unfold thread_step at 1. simpl. rewrite Hp. reflexivity.
  - intros f err u Hf. unfold notifyDone. rewrite Hf. reflexivity.
Qed.


(** ** The notifier *)

Lemma same_producer_step w1 w2 t :
  same_producer w1 w2 ->
  match step w1 t, step w2 t with
  | Some (w1', t1), Some (w2', t2) => same_producer w1' w2' /\ t1 = t2
  | None, None => True
  | _, _ => False
  end.
Proof.
  intros (Hq & Hr & Hs1 & Hs2 & Hw & Hn).
  unfold thread_step. cbv zeta.
  destruct (at_pc t) as [[]|]; simpl; rewrite ?Hq, ?Hr, ?Hs1, ?Hs2, ?Hw, ?Hn;
    repeat match goal with
      | |- context [match ?x with _ => _ end] =>
          lazymatch x with
          | context [match _ with _ => _ end] => fail
          | _ => destruct x eqn:?
          end
      end;
    simplify_eq/=; unfold same_producer; simpl;
    repeat split; congruence.
Qed.

Lemma same_behaviour_sched_step c1 c2 i :
  same_behaviour c1 c2 -> same_behaviour (sstep c1 i) (sstep c2 i).
Proof.
  intros [Hw Hts]. unfold sched_step. rewrite Hts.
  destruct (threads c2 !! i) as [t|]; [|split; assumption].
  pose proof (same_producer_step _ _ t Hw) as H.
  destruct (step (world c1) t) as [[w1 t1]|], (step (world c2) t) as [[w2 t2]|];
    try contradiction; [|split; assumption].
  destruct H as [H ->]. split; [exact H|reflexivity].
Qed.

Lemma same_behaviour_run sched : forall c1 c2,
  same_behaviour c1 c2 -> same_behaviour (exec c1 sched) (exec c2 sched).
Proof.
  induction sched as [|i sched IH]; intros c1 c2 H; [exact H|].
  simpl. apply IH, same_behaviour_sched_step, H.
Qed.

(** The callback field is never written, and the notifier's state
    only changes where [notifyDone] runs. *)
Lemma notifier_step w t w' t' :
  step w t = Some (w', t') ->
  Notifiers_Done (prod w') = Notifiers_Done (prod w) /\
  (user w' = user w \/
   exists j err, at_pc t = Some (start_notifyDone j err) /\
                 user w' = notifyDone (prod w) j err (user w)).
Proof.
  intros Hs. by_line Hs Hpc; split; try reflexivity; try (left; reflexivity).
  right. eauto.
Qed.

Lemma without_notifier_run sched : forall c,
  Notifiers_Done (prod (world c)) = None ->
  Notifiers_Done (prod (world (exec c sched))) = None /\
  user (world (exec c sched)) = user (world c).
Proof.
  induction sched as [|i sched IH]; intros c Hnil; [split; [exact Hnil|reflexivity]|].
  simpl.
  destruct (sched_step_cases c i) as [-> | (t & w' & t' & Hi & Hs & Heq)]; [auto|].
  rewrite Heq. destruct (notifier_step _ _ _ _ Hs) as [Hsame Huser].
  assert (Hu : user w' = user (world c)).
  { destruct Huser as [Hu | (j & err & _ & Hu)]; [exact Hu|].
    rewrite Hu. unfold notifyDone. rewrite Hnil. reflexivity. }
  destruct (IH {| world := w'; threads := <[i:=t']> (threads c) |}) as [H1 H2].
  - simpl. rewrite Hsame. exact Hnil.
  - split; [exact H1|]. rewrite H2. exact Hu.
Qed.

(** C9.  With a nil callback [notifyDone] returns what it was given,
    whatever the job and the error; with a callback [f] it is one
    call of [f] on that job and that error, made by the goroutine of
    the loop itself on its way back to line 53.  Two programs that
    differ only in the callback and in the state behind it stay that
    way under every schedule: same queue, flag, guards, wait group,
    counter and goroutines.  Without a callback the state behind it
    is never touched. *)
Theorem notifier_is_optional :
  (forall (p : Producer Q U) j err u,
     Notifiers_Done p = None -> notifyDone p j err u = u) /\
  (forall (p : Producer Q U) f j err u,
     Notifiers_Done p = Some f -> notifyDone p j err u = f j err u) /\
  (forall w t j err,
     at_pc t = Some (start_notifyDone j err) ->
     step w t = Some ({| prod := prod w; n := n w;
                         user := notifyDone (prod w) j err (user w) |},
                      goto start_L53 t)) /\
  (forall c1 c2 sched,
     same_behaviour c1 c2 -> same_behaviour (exec c1 sched) (exec c2 sched)) /\
  (forall c sched,
     Notifiers_Done (prod (world c)) = None ->
     user (world (exec c sched)) = user (world c)).
Proof.
  split; [|split; [|split; [|split]]].
  - intros p j err u Hnil. unfold notifyDone. rewrite Hnil. reflexivity.
  - intros p f j err u Hf. unfold notifyDone. rewrite Hf. reflexivity.
  - intros w t j err Hpc. unfold thread_step. rewrite Hpc. reflexivity.
  - intros c1 c2 sched. apply same_behaviour_run.
  - intros c sched Hnil. apply without_notifier_run, Hnil.
Qed.

(** ** The source never fails *)

Lemma no_source_error_step w ts i t w' t' :
  ts !! i = Some t ->
  step w t = Some (w', t') ->
  count holds_source_error ts = 0 ->
  count holds_source_error (<[i:=t']> ts) = 0.
Proof.
  intros Hi Hs Hinv.
  by_line Hs Hpc.
  all: match goal with |- context [<[_ := ?t']> _] =>
         track holds_source_error Hi Hpc t'
       end.
  all: lia.
Qed.

Lemma no_source_error_run sched : forall c,
  count holds_source_error (threads c) = 0 ->
  count holds_source_error (threads (exec c sched)) = 0.
Proof.
  induction sched as [|i sched IH]; intros c Hinv; [exact Hinv|].
  simpl. apply IH.
  destruct (sched_step_cases c i) as [-> | (t & w' & t' & Hi & Hs & ->)]; [exact Hinv|].
  simpl. eapply no_source_error_step; eauto.
Qed.

(** C10.  [next] returns a nil error and a job whose identifier is
    the counter after the increment, which wraps at [2^64]: one more
    than before below [2^64 - 1], zero at [2^64 - 1].  The [i]-th of
    [k] calls in a row returns the counter plus [i + 1], wrapped.
    In the loop, line 57 always hands a nil error to line 58, and in
    no run of a program on a new producer does a goroutine ever
    stand at line 58 with an error. *)
Theorem next_never_fails :
  (forall n0,
     next n0 = (wrap64 (n0 + 1), {| RepositoryID := wrap64 (n0 + 1) |}, None)) /\
  (forall n0, (0 <= n0 < uint64_mod - 1)%Z ->
     (wrap64 (n0 + 1) = n0 + 1)%Z /\ (n0 < wrap64 (n0 + 1))%Z) /\
  wrap64 (uint64_mod - 1 + 1) = 0%Z /\
  (forall k n0 i, i < k ->
     nexts k n0 !! i = Some {| RepositoryID := wrap64 (n0 + Z.of_nat i + 1) |}) /\
  (forall w t,
     at_pc t = Some start_L57 ->
     step w t =
       Some ({| prod := prod w; n := wrap64 (n w + 1); user := user w |},
             goto (start_L58 {| RepositoryID := wrap64 (n w + 1) |} None) t)) /\
  (forall d (q : Q) n0 (u : U) progs sched t j e,
     t ∈ threads (exec (initial d q n0 u progs) sched) ->
     at_pc t <> Some (start_L58 j (Some e))).
Proof.
  split; [reflexivity|].
  split; [intros n0 Hn; rewrite wrap64_small by lia; lia|].
  split; [reflexivity|].
  split; [intros k n0 i Hi; apply nexts_lookup, Hi|].
  split; [apply step_L57|].
  intros d q n0 u progs sched t j e Hin Hpc.
  assert (H0 : count holds_source_error
                 (threads (exec (initial (QJob:=QJob) d q n0 u progs) sched)) = 0).
  { apply no_source_error_run. apply count_initial_zero. reflexivity. }
  assert (1 <= count holds_source_error
                 (threads (exec (initial (QJob:=QJob) d q n0 u progs) sched))).
  { eapply count_pos; [exact Hin|]. unfold holds_source_error. rewrite Hpc. reflexivity. }
  lia.
Qed.

(** ** Stop on a loop that started after an earlier Stop *)

Lemma stopped_times_unstoppable sched : forall c,
  unstoppable c -> stopped_times NewJob Encode Publish c sched = 0.
Proof.
  induction sched as [|i sched IH]; intros c Hun; [reflexivity|].
  pose proof (unstoppable_sched_step c i Hun) as Hun'.
  specialize (IH _ Hun'). unfold stopped_times in *. simpl.
  destruct (trace_head (sstep c i) sched) as [rest Hrest].
  rewrite Hrest in *. simpl in *. rewrite IH.
  destruct Hun as (_ & Hup & _). destruct Hun' as (_ & Hup' & _).
  unfold observed_running, IsRunning. rewrite Hup, Hup'. reflexivity.
Qed.

(** C1, on the code.  One goroutine calls [Stop] and then [Start];
    after its nine moves [Start] has been called and the publish loop
    is running: the goroutine stands at the head of the loop, the flag
    is up, the wait group is at one.  A second goroutine now calls
    [Stop]: its two moves bring the call back at once, with the loop
    still running and [IsRunning] still true.  Whatever the schedule
    afterwards the flag stays up and the loop does not exit; the
    producer went from running to not running zero times, before the
    loop ran and after. *)
Theorem Stop_returns_while_the_loop_runs d (q : Q) n0 (u : U) sched :
  let c0 := initial d q n0 u [[Stop; Start]; [Stop]] in
  let c := exec c0 (replicate 9 0) in
  let c' := exec c [1; 1] in
  (threads c !! 0
     = Some {| at_pc := Some start_L53; todo := []; returned := [Stop] |} /\
   IsRunning (prod (world c)) = true /\
   wg (prod (world c)) = 1%Z /\
   startOnce (prod (world c)) = Busy) /\
  (threads c' !! 1 = Some {| at_pc := None; todo := []; returned := [Stop] |} /\
   IsRunning (prod (world c')) = true /\
   ~ loop_exited c') /\
  (IsRunning (prod (world (exec c' sched))) = true /\
   ~ loop_exited (exec c' sched) /\
   stopped_times NewJob Encode Publish c0 (replicate 9 0) = 0 /\
   stopped_times NewJob Encode Publish c ([1; 1] ++ sched) = 0).
Proof.
  intros c0 c c'.
  assert (Hun : unstoppable c).
  { unfold unstoppable. repeat split; simpl; lia. }
  assert (Hun' : unstoppable c') by apply unstoppable_run, Hun.
  pose proof (unstoppable_run sched c' Hun') as Hfin.
  split; [repeat split|]. split.
  - split; [reflexivity|]. split; [reflexivity|].
    apply unstoppable_never_exits, Hun'.
  - split; [apply Hfin|]. split; [apply unstoppable_never_exits, Hfin|].
    split; [reflexivity|]. apply stopped_times_unstoppable, Hun.
Qed.

(** ** A source error is told to nobody *)


End ProducerFacts.

(** * The facts at work on the small producer *)

Lemma looping_is_running : LoopRunning Demo.looping.
Proof. constructor; reflexivity. Defined.

Lemma Stop_waits_for_the_loop_witness :
  LoopRunning Demo.looping /\
  (exists t, t ∈ threads (Demo.exec Demo.looping Demo.stopping_schedule) /\
             returned t = [Stop; Stop]) /\
  loop_exited (Demo.exec Demo.looping Demo.stopping_schedule) /\
  IsRunning (prod (world (Demo.exec Demo.looping Demo.stopping_schedule))) = false /\
  stopped_times Demo.NewJob Demo.Encode Demo.Publish Demo.looping Demo.stopping_schedule = 1.
Proof.
  split; [exact looping_is_running|].
  destruct (Stop_waits_for_the_loop Demo.NewJob Demo.Encode Demo.Publish
              Demo.looping Demo.stopping_schedule looping_is_running) as [Hret _].
  set (t := {| at_pc := None; todo := []; returned := [Stop; Stop] |} : Thread Demo.QJob).
  assert (Hin : t ∈ threads (Demo.exec Demo.looping Demo.stopping_schedule)).
  { apply list_elem_of_lookup. exists 1. reflexivity. }
  split; [exists t; split; [exact Hin|reflexivity]|].
  apply (Hret t Hin). apply (bool_decide_eq_true_1 _). reflexivity.
Defined.

Lemma source_error_is_not_fatal_witness :
  let w := Demo.a_world (Some Demo.log_Done) in
  let t := Demo.with_source_error "source is down" in
  Demo.step w t = Some (w, goto start_L53 t) /\
  Demo.steps 2 w t = Some (w, goto start_L57 t).
Proof.
  destruct (source_error_is_not_fatal Demo.NewJob Demo.Encode Demo.Publish
              (Demo.a_world (Some Demo.log_Done))
              (Demo.with_source_error "source is down")
              {| RepositoryID := 7 |} "source is down"%string eq_refl)
    as (H1 & H2 & _).
  split; [exact H1|exact (H2 eq_refl)].
Defined.

Lemma publish_outcomes_witness :
  (* identifier 5 does not encode: nothing is published *)
  Demo.steps 2 (Demo.a_world_with []) (Demo.with_job 5)
  = Some ({| prod := prod (Demo.a_world_with []); n := 7;
             user := [({| RepositoryID := 5 |}, Some "cannot encode"%string)] |},
          goto start_L53 (Demo.with_job 5)) /\
  (* identifier 7 encodes, but the queue is full *)
  Demo.steps 3 (Demo.a_world_with [None; None]) (Demo.with_job 7)
  = Some ({| prod := prod (Demo.a_world_with [None; None]); n := 7;
             user := [({| RepositoryID := 7 |}, Some "queue is full"%string)] |},
          goto start_L53 (Demo.with_job 7)) /\
  (* identifier 7 encodes and is published *)
  Demo.steps 3 (Demo.a_world_with []) (Demo.with_job 7)
  = Some ({| prod := prod (Demo.a_world_with [Some 7%Z]); n := 7;
             user := [({| RepositoryID := 7 |}, None)] |},
          goto start_L53 (Demo.with_job 7)).
Proof.
  pose proof (fun (w : World Demo.Q Demo.U) id =>
                publish_outcomes Demo.NewJob Demo.Encode Demo.Publish
                w (Demo.with_job id) {| RepositoryID := id |} eq_refl) as H.
  split; [|split].
  - destruct (H (Demo.a_world_with []) 5%Z) as (H1 & _ & _).
    exact (H1 None "cannot encode"%string eq_refl).
  - destruct (H (Demo.a_world_with [None; None]) 7%Z) as (_ & H2 & _).
    exact (H2 (Some 7%Z) [None; None] (Some "queue is full"%string) eq_refl eq_refl).
  - destruct (H (Demo.a_world_with []) 7%Z) as (_ & H2 & _).
    exact (H2 (Some 7%Z) [Some 7%Z] None eq_refl eq_refl).
Defined.

(** Under [Demo.three_rounds] every call comes back. *)
Example three_rounds_stop :
  map returned (threads (Demo.exec Demo.start_then_stop Demo.three_rounds))
  = [[Start; Start]; [Stop; Stop]].
Proof. reflexivity. Qed.

Lemma Start_is_one_shot_witness :
  let before := Demo.exec Demo.looping (take 12 Demo.stopping_schedule) in
  let t := {| at_pc := Some Start_L40; todo := []; returned := [Start] |} in
  threads before !! 0 = Some t /\
  Demo.step (world before) t = Some (world before, ret Start t) /\
  loops_started Demo.NewJob Demo.Encode Demo.Publish
    Demo.start_then_stop Demo.three_rounds = 1.
Proof.
  destruct (Start_is_one_shot Demo.NewJob Demo.Encode Demo.Publish (U:=Demo.U))
    as [Hsecond Hloops].
  split; [reflexivity|]. split.
  - apply Hsecond; reflexivity.
  - destruct (Hloops (Some Demo.log_Done) [] 0%Z [] [[Start; Start]; [Stop; Stop]]
                Demo.three_rounds) as [_ Hsum].
    change (initial (Some Demo.log_Done) [] 0 [] [[Start; Start]; [Stop; Stop]])
      with Demo.start_then_stop in Hsum.
    replace (loops_to_start (Demo.exec Demo.start_then_stop Demo.three_rounds))
      with 0 in Hsum by reflexivity.
    rewrite <- Hsum. symmetry. apply Nat.add_0_r.
Defined.

Lemma notifier_is_optional_witness :
  same_behaviour (Demo.exec Demo.silent Demo.three_rounds)
                 (Demo.exec Demo.start_then_stop Demo.three_rounds) /\
  user (world (Demo.exec Demo.silent Demo.three_rounds)) = [] /\
  user (world (Demo.exec Demo.start_then_stop Demo.three_rounds))
  = [({| RepositoryID := 1 |}, None); ({| RepositoryID := 2 |}, None);
     ({| RepositoryID := 3 |}, Some "queue is full"%string)].
Proof.
  destruct (notifier_is_optional Demo.NewJob Demo.Encode Demo.Publish (U:=Demo.U))
    as (_ & _ & _ & Hsame & Hsilent).
  split; [|split].
  - apply Hsame. repeat split.
  - apply (Hsilent Demo.silent Demo.three_rounds). reflexivity.
  - reflexivity.
Defined.

Lemma next_never_fails_witness :
  nexts 3 (uint64_mod - 2)
  = [{| RepositoryID := uint64_mod - 1 |}; {| RepositoryID := 0 |};
     {| RepositoryID := 1 |}] /\
  next 41 = (42%Z, {| RepositoryID := 42 |}, None).
Proof.
  destruct (next_never_fails Demo.NewJob Demo.Encode Demo.Publish (U:=Demo.U))
    as (Hnext & _ & _ & Hnexts & _).
  split; [|exact (Hnext 41%Z)].
  apply list_eq. intros [|[|[|i]]]; [| | |reflexivity].
  - exact (Hnexts 3 (uint64_mod - 2)%Z 0 ltac:(lia)).
  - exact (Hnexts 3 (uint64_mod - 2)%Z 1 ltac:(lia)).
  - exact (Hnexts 3 (uint64_mod - 2)%Z 2 ltac:(lia)).
Defined.

(** [Stop], then [Start], then two more calls of [Stop] from another
    goroutine and six rounds of the loop: both later calls of [Stop]
    have returned, and the producer still runs and still publishes. *)
Example stop_then_start_keeps_running :
  let c := Demo.exec Demo.stop_then_start
             (replicate 9 0 ++ [1; 1; 1; 1] ++ replicate 36 0) in
  map returned (threads c) = [[Stop]; [Stop; Stop]] /\
  IsRunning (prod (world c)) = true /\
  stopOnce (prod (world c)) = Finished /\
  n (world c) = 6%Z /\
  length (user (world c)) = 6.
Proof. repeat split. Qed.



(** * More facts about the producer *)

(** The value of a position test on a goroutine whose line is known. *)
Ltac where_is Hpc :=
  cbv beta delta [at_L49 at_L50 in_loop iterating at_Start_return at_L79
                  at_L80 at_Stop_return past_L49 has_returned
                  holds_source_error idle leaving at_Start_L40 at_Stop_L45
                  at_deferred holds_job holding];
  cbn [goto ret at_pc returned todo];
  rewrite ?Hpc; simpl; reflexivity.

(** How a count changes when the goroutine of [Hi] becomes [t']. *)
Tactic Notation "follow" uconstr(f) hyp(Hi) hyp(Hpc) constr(t') :=
  let H := fresh "Hcount" in
  pose proof (count_insert f _ _ _ t' _ _ Hi
                ltac:(where_is Hpc) ltac:(where_is Hpc)) as H;
  rewrite ?returned_same, ?returned_other in H by discriminate;
  cbv beta iota in H.

(** One goal per line of [producer.go] a goroutine can move from. *)
Ltac line_by_line Hs Hpc :=
  unfold thread_step, next in Hs;
  match type of Hs with
  | context [at_pc ?t] => destruct (at_pc t) as [[]|] eqn:Hpc
  end;
  repeat match type of Hs with
    | context [match ?x with _ => _ end] => destruct x eqn:?
    | (let '(_, _) := ?x in _) = _ => destruct x eqn:?
    end;
  simplify_eq/=;
  try match goal with c0 : call |- _ => destruct c0 end.

(** Hypotheses that compare two known guard states or flags, resolved. *)
Ltac tidy :=
  repeat match goal with
  | H : False |- _ => destruct H
  | H : _ /\ _ |- _ => destruct H
  | H : ?x <> ?x |- _ => destruct (H eq_refl)
  | H : ?x = ?x |- _ => clear H
  | H : ?x = ?x -> _ |- _ => specialize (H eq_refl)
  | H : ?x <> ?y |- _ => assert (x <> y) as _ by discriminate; clear H
  | H : ?x = ?y -> _ |- _ => assert (x <> y) as _ by discriminate; clear H
  | H : _ -> ?x = ?x |- _ => clear H
  | H : ?P -> ?x = ?y |- _ =>
      assert (x <> y) as _ by discriminate;
      assert (~ P) by (let K := fresh in intro K; discriminate (H K));
      clear H
  end.

(** Counts that did not change, and the ones that depend on what has
    returned. *)
Ltac settle_counts :=
  repeat match goal with
  | H : ?a + ?x = ?b + ?x |- _ => apply Nat.add_cancel_r in H
  | H : context [if bool_decide ?P then _ else _] |- _ => destruct (bool_decide P)
  end.

Section LifecycleFacts.

Context {QJob Q U : Type}.
Variable NewJob : QJob.
Variable Encode : QJob -> Job -> QJob * option error.
Variable Publish : Q -> QJob -> Q * option error.

Local Abbreviation step := (thread_step (U:=U) NewJob Encode Publish).
Local Abbreviation steps := (thread_steps (U:=U) NewJob Encode Publish).
Local Abbreviation sstep := (sched_step (U:=U) NewJob Encode Publish).
Local Abbreviation exec := (run (U:=U) NewJob Encode Publish).
Local Abbreviation visited := (trace (U:=U) NewJob Encode Publish).
Local Abbreviation leaves := (leaves_within (U:=U) NewJob Encode Publish).

Implicit Types (w : World Q U) (t : Thread QJob) (c : Config QJob Q U).

Lemma life_inv_step w ts i t w' t' :
  ts !! i = Some t ->
  step w t = Some (w', t') ->
  life_inv {| world := w; threads := ts |} ->
  life_inv {| world := w'; threads := <[i:=t']> ts |}.
Proof.
  intros Hi Hs Hinv.
  line_by_line Hs Hpc.
  all: unfold life_inv, in_start, in_stop in *; simpl in *.
  all: match goal with |- context [<[_ := ?t']> _] =>
         follow at_L49 Hi Hpc t'; follow at_L50 Hi Hpc t';
         follow iterating Hi Hpc t'; follow at_deferred Hi Hpc t';
         follow at_Start_return Hi Hpc t'; follow at_L79 Hi Hpc t';
         follow at_L80 Hi Hpc t'; follow at_Stop_return Hi Hpc t';
         follow (has_returned Start) Hi Hpc t';
         follow (has_returned Stop) Hi Hpc t'
       end.
  all: settle_counts.
  all: repeat match type of Hinv with
         | context [startOnce ?p] => destruct (startOnce p) eqn:?
         | context [stopOnce ?p] => destruct (stopOnce p) eqn:?
         | context [running ?p] => destruct (running p) eqn:?
         end.
  all: simpl in *; try discriminate.
  all: tidy.
  all: repeat split; intros; tidy; try reflexivity; try discriminate; try lia.
Qed.

Lemma life_inv_sched_step c i : life_inv c -> life_inv (sstep c i).
Proof.
  intros Hinv.
  destruct (sched_step_cases NewJob Encode Publish c i)
    as [-> | (t & w' & t' & Hi & Hs & ->)]; [exact Hinv|].
  destruct c as [w ts]. eapply life_inv_step; eauto.
Qed.

Lemma life_inv_run sched : forall c, life_inv c -> life_inv (exec c sched).
Proof.
  induction sched as [|i sched IH]; intros c Hinv; [exact Hinv|].
  simpl. apply IH, life_inv_sched_step, Hinv.
Qed.

Lemma initial_life_inv d (q : Q) n0 (u : U) progs :
  life_inv (initial (QJob:=QJob) d q n0 u progs).
Proof.
  unfold life_inv, in_start, in_stop, initial. simpl.
  rewrite !count_initial_zero by reflexivity. simpl.
  repeat split; try reflexivity; try discriminate; intros; lia.
Qed.

Lemma life_inv_reached d (q : Q) n0 (u : U) progs sched :
  life_inv (exec (initial d q n0 u progs) sched).
Proof. apply life_inv_run, initial_life_inv. Qed.

(** A test that is the disjunction of two tests that exclude each
    other counts what the two count together. *)
Lemma count_split (f g h : Thread QJob -> bool) ts :
  (forall t, f t = g t || h t) -> (forall t, g t && h t = false) ->
  count f ts = count g ts + count h ts.
Proof.
  intros Hf Hgh. induction ts as [|t ts IH]; [reflexivity|].
  rewrite !count_cons, IH, Hf. specialize (Hgh t).
  destruct (g t), (h t); simpl in *; try discriminate; lia.
Qed.

Lemma count_in_loop ts :
  count (QJob:=QJob) in_loop ts = count iterating ts + count at_deferred ts.
Proof.
  apply count_split; intros t; unfold in_loop, iterating, at_deferred;
    destruct (at_pc t) as [[]|]; reflexivity.
Qed.

Lemma count_exists (f : Thread QJob -> bool) ts :
  1 <= count f ts -> exists i t, ts !! i = Some t /\ f t = true.
Proof.
  induction ts as [|t ts IH]; [unfold count; simpl; lia|].
  rewrite count_cons. destruct (f t) eqn:Hf.
  - intros _. exists 0, t. auto.
  - intros H. destruct IH as (i & t0 & Hi & Ht0); [simpl in H; lia|].
    exists (S i), t0. auto.
Qed.

(** At most one goroutine satisfies [f]: two that do are the same. *)
Lemma count_unique (f : Thread QJob -> bool) ts i1 i2 t1 t2 :
  count f ts <= 1 ->
  ts !! i1 = Some t1 -> f t1 = true ->
  ts !! i2 = Some t2 -> f t2 = true -> i1 = i2.
Proof.
  revert i1 i2. induction ts as [|t ts IH]; intros i1 i2 Hle H1 F1 H2 F2; [discriminate|].
  rewrite count_cons in Hle.
  destruct i1 as [|i1], i2 as [|i2]; simplify_eq/=; try reflexivity.
  - rewrite F1 in Hle.
    assert (1 <= count f ts) by (eapply count_pos; [eapply list_elem_of_lookup_2|]; eauto).
    lia.
  - rewrite F2 in Hle.
    assert (1 <= count f ts) by (eapply count_pos; [eapply list_elem_of_lookup_2|]; eauto).
    lia.
  - f_equal. eapply IH; eauto. destruct (f t); lia.
Qed.

(** X1.  In every run of every program on a new producer the wait
    group counts the goroutines that stand between [p.wg.Add(1)] and
    the deferred [p.wg.Done()]: it is 0 or 1, never negative (so
    [Done] cannot panic), at most one goroutine is inside [start] and
    at most one inside [stop]. *)
Theorem wait_group_counts_the_loop d (q : Q) n0 (u : U) progs sched :
  let c := exec (initial d q n0 u progs) sched in
  wg (prod (world c)) = Z.of_nat (count in_loop (threads c)) /\
  (0 <= wg (prod (world c)) <= 1)%Z /\
  in_start (threads c) <= 1 /\ in_stop (threads c) <= 1.
Proof.
  intros c.
  destruct (life_inv_reached d q n0 u progs sched) as (Hs & Ht & Hwg & _).
  fold c in Hs, Ht, Hwg. rewrite count_in_loop.
  assert (in_start (threads c) <= 1) by (rewrite Hs; destruct (startOnce _); simpl; lia).
  assert (in_stop (threads c) <= 1) by (rewrite Ht; destruct (stopOnce _); simpl; lia).
  unfold in_start in *. repeat split; try assumption; lia.
Qed.

(** ** Nobody waits for nothing *)

Lemma can_move_in_start w t :
  at_L49 t || at_L50 t || iterating t || at_deferred t || at_Start_return t = true ->
  can_move NewJob Encode Publish w t = true.
Proof.
  unfold at_L49, at_L50, iterating, at_deferred, at_Start_return, can_move, thread_step.
  destruct (at_pc t) as [[]|]; simpl; try discriminate; intros _;
    repeat match goal with
      | |- context [match ?x with _ => _ end] =>
          lazymatch x with
          | context [match _ with _ => _ end] => fail
          | _ => destruct x eqn:?
          end
      end; reflexivity.
Qed.

Lemma mover_in_start w ts :
  1 <= in_start ts ->
  exists i t, ts !! i = Some t /\ can_move NewJob Encode Publish w t = true.
Proof.
  intros H. unfold in_start in H.
  assert (Hex : exists i t, ts !! i = Some t /\
            at_L49 t || at_L50 t || iterating t || at_deferred t || at_Start_return t = true).
  { destruct (decide (1 <= count at_L49 ts)) as [H1|H1];
      [apply count_exists in H1 as (i & t & Hi & Ht); exists i, t; rewrite Ht; auto|].
    destruct (decide (1 <= count at_L50 ts)) as [H2|H2];
      [apply count_exists in H2 as (i & t & Hi & Ht); exists i, t; rewrite Ht;
       split; [exact Hi|]; rewrite orb_true_r; reflexivity|].
    destruct (decide (1 <= count iterating ts)) as [H3|H3];
      [apply count_exists in H3 as (i & t & Hi & Ht); exists i, t; rewrite Ht;
       split; [exact Hi|]; rewrite orb_true_r; reflexivity|].
    destruct (decide (1 <= count at_deferred ts)) as [H4|H4];
      [apply count_exists in H4 as (i & t & Hi & Ht); exists i, t; rewrite Ht;
       split; [exact Hi|]; rewrite orb_true_r; reflexivity|].
    assert (H5 : 1 <= count at_Start_return ts) by lia.
    apply count_exists in H5 as (i & t & Hi & Ht). exists i, t. rewrite Ht.
    split; [exact Hi|]. rewrite orb_true_r. reflexivity. }
  destruct Hex as (i & t & Hi & Ht). exists i, t. split; [exact Hi|].
  apply can_move_in_start, Ht.
Qed.

Lemma mover_in_stop c :
  life_inv c -> 1 <= in_stop (threads c) ->
  exists i t, threads c !! i = Some t /\ can_move NewJob Encode Publish (world c) t = true.
Proof.
  intros (Hs & Ht & Hwg & _) H. unfold in_stop in H.
  destruct (decide (1 <= count at_L79 (threads c))) as [H1|H1].
  { apply count_exists in H1 as (i & t & Hi & Hat). exists i, t. split; [exact Hi|].
    unfold at_L79 in Hat. unfold can_move, thread_step.
    destruct (at_pc t) as [[]|]; try discriminate. reflexivity. }
  destruct (decide (1 <= count at_Stop_return (threads c))) as [H2|H2].
  { apply count_exists in H2 as (i & t & Hi & Hat). exists i, t. split; [exact Hi|].
    unfold at_Stop_return in Hat. unfold can_move, thread_step.
    destruct (at_pc t) as [[]|]; try discriminate. reflexivity. }
  assert (H3 : 1 <= count at_L80 (threads c)) by lia.
  destruct (decide (wg (prod (world c)) = 0%Z)) as [Hz|Hnz].
  - apply count_exists in H3 as (i & t & Hi & Hat). exists i, t. split; [exact Hi|].
    unfold at_L80 in Hat. unfold can_move, thread_step.
    destruct (at_pc t) as [[]|]; try discriminate.
    destruct (decide (wg (prod (world c)) = 0%Z)); [reflexivity|contradiction].
  - apply mover_in_start. unfold in_start. lia.
Qed.

Lemma waiting_cases w t :
  waiting NewJob Encode Publish w t = true ->
  (at_pc t = Some Start_L40 /\ startOnce (prod w) = Busy) \/
  (at_pc t = Some Stop_L45 /\ stopOnce (prod w) = Busy) \/
  (at_pc t = Some stop_L80 /\ wg (prod w) <> 0%Z).
Proof.
  unfold waiting, idle, can_move, thread_step.
  destruct (at_pc t) as [[]|]; simpl; try discriminate;
    repeat match goal with
      | |- context [match ?x with _ => _ end] =>
          lazymatch x with
          | context [match _ with _ => _ end] => fail
          | _ => destruct x eqn:?
          end
      end; simpl; try discriminate; auto.
Qed.

(** X2.  As long as [Encode], [Publish] and the [Done] callback
    return and the callback acts on its own state only (it makes no
    call on the producer, neither [Stop] nor [Start]), [Start] and
    [Stop] do not deadlock each other.  In every run on a new
    producer, if a goroutine is stuck inside a call (on a guard that is
    held, or in [p.wg.Wait()]), some goroutine has a move to make. *)
Theorem no_deadlock d (q : Q) n0 (u : U) progs sched i t :
  let c := exec (initial d q n0 u progs) sched in
  threads c !! i = Some t ->
  waiting NewJob Encode Publish (world c) t = true ->
  exists i' t', threads c !! i' = Some t' /\
                can_move NewJob Encode Publish (world c) t' = true.
Proof.
  intros c Hi Hwait.
  pose proof (life_inv_reached d q n0 u progs sched) as Hinv. fold c in Hinv.
  pose proof Hinv as (Hs & Ht & Hwg & _).
  destruct (waiting_cases _ _ Hwait) as [[Hpc Hb] | [[Hpc Hb] | [Hpc Hnz]]].
  - apply mover_in_start. rewrite Hs, Hb. reflexivity.
  - apply mover_in_stop; [exact Hinv|]. rewrite Ht, Hb. reflexivity.
  - apply mover_in_stop; [exact Hinv|].
    assert (1 <= count at_L80 (threads c)).
    { eapply count_pos; [eapply list_elem_of_lookup_2; exact Hi|].
      unfold at_L80. rewrite Hpc. reflexivity. }
    unfold in_stop. lia.
Qed.

(** X4.  In every run on a new producer, when [IsRunning] answers
    true the start guard is held, exactly one goroutine stands at line
    50 or inside the loop, the body of [start] is not over and no call
    of [Start] has come back. *)
Theorem running_means_looping d (q : Q) n0 (u : U) progs sched :
  let c := exec (initial d q n0 u progs) sched in
  IsRunning (prod (world c)) = true ->
  startOnce (prod (world c)) = Busy /\
  count at_L50 (threads c) + count iterating (threads c) = 1 /\
  ~ loop_exited c /\
  (forall t, t ∈ threads c -> Start ∉ returned t).
Proof.
  intros c Hrun. unfold IsRunning in Hrun.
  destruct (life_inv_reached d q n0 u progs sched)
    as (Hs & _ & _ & Hup & _ & _ & Hfin & Hret & _).
  fold c in Hs, Hup, Hfin, Hret. specialize (Hup Hrun).
  unfold in_start in Hs.
  assert (Hb : startOnce (prod (world c)) = Busy).
  { destruct (startOnce (prod (world c))); simpl in Hs; try lia. reflexivity. }
  rewrite Hb in Hs. simpl in Hs.
  split; [exact Hb|]. split; [lia|]. split.
  - unfold loop_exited. rewrite count_in_loop. lia.
  - intros t Hin HS.
    assert (1 <= count (has_returned Start) (threads c)).
    { eapply count_pos; [exact Hin|]. apply bool_decide_eq_true_2, HS. }
    specialize (Hret H). congruence.
Qed.

(** X5.  [Start] blocks until [Stop] is called.  In every run on a
    new producer, once a call of [Start] has come back the stop guard
    is no longer fresh (some goroutine went into [stop]), the start
    guard is used, [IsRunning] answers false and the body of [start] is
    over. *)
Theorem Start_returns_only_after_Stop d (q : Q) n0 (u : U) progs sched t :
  let c := exec (initial d q n0 u progs) sched in
  t ∈ threads c -> Start ∈ returned t ->
  stopOnce (prod (world c)) <> Fresh /\
  startOnce (prod (world c)) = Finished /\
  IsRunning (prod (world c)) = false /\
  loop_exited c.
Proof.
  intros c Hin HS.
  destruct (life_inv_reached d q n0 u progs sched)
    as (Hs & _ & _ & _ & Hfresh & _ & Hfin & Hret & _).
  fold c in Hs, Hfresh, Hfin, Hret.
  assert (Hone : 1 <= count (has_returned Start) (threads c)).
  { eapply count_pos; [exact Hin|]. apply bool_decide_eq_true_2, HS. }
  specialize (Hret Hone). rewrite Hret in Hs. unfold in_start in Hs. simpl in Hs.
  split; [intros Hf; destruct (Hfresh Hf) as (_ & Hne & _); contradiction|].
  split; [exact Hret|]. split; [apply Hfin, Hret|].
  unfold loop_exited. rewrite count_in_loop. lia.
Qed.

(** ** The flag goes up once and down once *)

Lemma stops_to_run_step w ts i t w' t' :
  ts !! i = Some t ->
  step w t = Some (w', t') ->
  life_inv {| world := w; threads := ts |} ->
  (if at_L79 t then 1 else 0)
    + stops_to_run {| world := w'; threads := <[i:=t']> ts |}
  = stops_to_run {| world := w; threads := ts |}.
Proof.
  intros Hi Hs (_ & Hinv & _).
  assert (Hat : at_L79 t = match at_pc t with Some stop_L79 => true | _ => false end)
    by reflexivity.
  pose (moved := t').
  line_by_line Hs Hpc.
  all: unfold stops_to_run, in_stop in *; simpl in *.
  all: rewrite Hat; clear Hat.
  all: match goal with moved := ?t' |- _ =>
         follow at_L79 Hi Hpc t'; follow at_L80 Hi Hpc t';
         follow at_Stop_return Hi Hpc t'
       end; clear moved.
  all: match type of Hinv with
       | context [stopOnce ?p] => destruct (stopOnce p) eqn:Hso
       end; simpl in *; try discriminate.
  all: lia.
Qed.

Lemma stops_to_run_sched_step c i :
  life_inv c ->
  (if enters_stop c i then 1 else 0) + stops_to_run (sstep c i) = stops_to_run c.
Proof.
  intros Hinv. unfold enters_stop, sched_step.
  destruct (threads c !! i) as [t|] eqn:Hi; [|reflexivity].
  destruct (step (world c) t) as [[w' t']|] eqn:Hs.
  - destruct c as [w ts]. eapply stops_to_run_step; eauto.
  - destruct (at_L79 t) eqn:Hat; [|reflexivity].
    exfalso. unfold at_L79 in Hat. unfold thread_step in Hs.
    destruct (at_pc t) as [[]|]; discriminate.
Qed.

Lemma stops_run_total sched : forall c,
  life_inv c ->
  stops_run NewJob Encode Publish c sched + stops_to_run (exec c sched)
  = stops_to_run c.
Proof.
  induction sched as [|i sched IH]; intros c Hinv; [reflexivity|].
  pose proof (stops_to_run_sched_step c i Hinv) as Hone.
  specialize (IH _ (life_inv_sched_step c i Hinv)). simpl. lia.
Qed.

(** Only line 49, in [start], puts the flag up. *)
Lemma flag_up_only_at_L49 w t w' t' :
  step w t = Some (w', t') ->
  running (prod w) = false -> running (prod w') = true ->
  at_pc t = Some start_L49.
Proof.
  intros Hs Hdown Hup. line_by_line Hs Hpc; try congruence; reflexivity.
Qed.

Lemma fall_is_a_stop c i :
  observed_running c = true -> observed_running (sstep c i) = false ->
  enters_stop c i = true.
Proof.
  intros Hup Hdown. unfold enters_stop.
  destruct (sched_step_cases NewJob Encode Publish c i)
    as [Heq | (t & w' & t' & Hi & Hs & Heq)]; rewrite Heq in Hdown.
  - congruence.
  - rewrite Hi. unfold at_L79.
    rewrite (flag_down_only_at_L79 _ _ _ _ _ _ _ Hs Hup Hdown). reflexivity.
Qed.

Lemma rise_is_a_start c i :
  observed_running c = false -> observed_running (sstep c i) = true ->
  enters_start c i = true.
Proof.
  intros Hdown Hup. unfold enters_start.
  destruct (sched_step_cases NewJob Encode Publish c i)
    as [Heq | (t & w' & t' & Hi & Hs & Heq)]; rewrite Heq in Hup.
  - congruence.
  - rewrite Hi. unfold at_L49.
    rewrite (flag_up_only_at_L49 _ _ _ _ Hs Hdown Hup). reflexivity.
Qed.

Lemma flips_cons2 b1 b2 (bs : list bool) :
  flips (b1 :: b2 :: bs) = (if b1 && negb b2 then 1 else 0) + flips (b2 :: bs).
Proof. reflexivity. Qed.

Lemma rises_cons2 b1 b2 (bs : list bool) :
  rises (b1 :: b2 :: bs) = (if negb b1 && b2 then 1 else 0) + rises (b2 :: bs).
Proof. reflexivity. Qed.

Lemma stopped_times_le_stops_run sched : forall c,
  stopped_times NewJob Encode Publish c sched <= stops_run NewJob Encode Publish c sched.
Proof.
  induction sched as [|i sched IH]; intros c; [reflexivity|].
  specialize (IH (sstep c i)). unfold stopped_times in *. cbn [trace stops_run].
  destruct (trace_head NewJob Encode Publish (sstep c i) sched) as [rest Hrest].
  rewrite Hrest in *. cbn [map] in *. rewrite flips_cons2.
  destruct (observed_running c) eqn:Hb, (observed_running (sstep c i)) eqn:Hb';
    cbn [andb negb]; try lia.
  rewrite (fall_is_a_stop c i Hb Hb'). lia.
Qed.

Lemma started_times_le_loops_started sched : forall c,
  started_times NewJob Encode Publish c sched
  <= loops_started NewJob Encode Publish c sched.
Proof.
  induction sched as [|i sched IH]; intros c; [reflexivity|].
  specialize (IH (sstep c i)). unfold started_times in *. cbn [trace loops_started].
  destruct (trace_head NewJob Encode Publish (sstep c i) sched) as [rest Hrest].
  rewrite Hrest in *. cbn [map] in *. rewrite rises_cons2.
  destruct (observed_running c) eqn:Hb, (observed_running (sstep c i)) eqn:Hb';
    cbn [andb negb]; try lia.
  rewrite (rise_is_a_start c i Hb Hb'). lia.
Qed.

(** A flag cannot fall more often than it rose, unless it began up. *)
Lemma flips_le_rises (bs : list bool) :
  flips bs <= rises bs + (if head bs is Some true then 1 else 0).
Proof.
  induction bs as [|b1 bs IH]; [simpl; lia|].
  destruct bs as [|b2 bs]; [destruct b1; simpl; lia|].
  rewrite flips_cons2, rises_cons2. cbn [head] in *.
  destruct b1, b2; cbn [andb negb] in *; lia.
Qed.

(** X3.  [stop] is one-shot and the flag changes at most twice.  In
    every run on a new producer line 79 is run at most once (once
    exactly when the stop guard is no longer fresh and nobody stands at
    line 79); [IsRunning] goes from true to false at most once, from
    false to true at most once, and never falls more often than it
    rose. *)
Theorem Stop_is_one_shot d (q : Q) n0 (u : U) progs sched :
  let c := initial d q n0 u progs in
  stops_run NewJob Encode Publish c sched + stops_to_run (exec c sched) = 1 /\
  stopped_times NewJob Encode Publish c sched <= 1 /\
  started_times NewJob Encode Publish c sched <= 1 /\
  stopped_times NewJob Encode Publish c sched
    <= started_times NewJob Encode Publish c sched.
Proof.
  intros c.
  pose proof (stops_run_total sched c (initial_life_inv d q n0 u progs)) as Hstop.
  change (stops_to_run c) with 1 in Hstop.
  pose proof (loops_started_run NewJob Encode Publish sched c
                (initial_start_inv d q n0 u progs)) as Hstart.
  change (loops_to_start c) with 1 in Hstart.
  pose proof (stopped_times_le_stops_run sched c).
  pose proof (started_times_le_loops_started sched c).
  split; [exact Hstop|]. split; [lia|]. split; [lia|].
  unfold stopped_times, started_times.
  pose proof (flips_le_rises (map observed_running (visited c sched))) as Hfr.
  destruct (trace_head NewJob Encode Publish c sched) as [rest Hrest].
  rewrite Hrest in *. simpl in Hfr. simpl. lia.
Qed.

(** ** Stop comes back *)

Lemma steps_S k w t w1 t1 :
  step w t = Some (w1, t1) -> steps (S k) w t = steps k w1 t1.
Proof. intros H. simpl. rewrite H. reflexivity. Qed.

Lemma leaves_after k w t w1 t1 w' :
  step w t = Some (w1, t1) ->
  same_control w w1 ->
  goto start_deferred t1 = goto start_deferred t ->
  leaves k w1 t1 w' -> leaves (S k) w t w'.
Proof.
  intros Hs (A1 & A2 & A3 & A4 & A5) Hg (k' & Hk & Hrun & B1 & B2 & B3 & B4 & B5).
  exists (S k'). split; [lia|]. rewrite (steps_S _ _ _ _ _ Hs), Hrun, Hg.
  split; [reflexivity|]. unfold same_control. repeat split; congruence.
Qed.

Lemma leaves_L53 w t :
  at_pc t = Some start_L53 -> running (prod w) = false ->
  leaves 1 w t w.
Proof.
  intros Hpc Hdown. exists 1. split; [lia|]. simpl. unfold thread_step.
  rewrite Hpc, Hdown. repeat split.
Qed.

Lemma leaves_notifyDone w t j err :
  at_pc t = Some (start_notifyDone j err) -> running (prod w) = false ->
  exists w', leaves 2 w t w' /\ n w' = n w.
Proof.
  intros Hpc Hdown. eexists. split.
  - eapply leaves_after;
      [unfold thread_step; rewrite Hpc; reflexivity|repeat split|reflexivity|].
    apply leaves_L53; [reflexivity|exact Hdown].
  - reflexivity.
Qed.

Lemma leaves_L69 w t j job :
  at_pc t = Some (start_L69 j job) -> running (prod w) = false ->
  exists w', leaves 3 w t w' /\ n w' = n w.
Proof.
  intros Hpc Hdown.
  destruct (Publish (queue (prod w)) job) as [q' err] eqn:Hp.
  destruct (leaves_notifyDone (with_prod (set_queue q') w)
              (goto (start_notifyDone j err) t) j err eq_refl Hdown) as (w' & Hl & Hn).
  exists w'. split; [|exact Hn].
  eapply leaves_after; [unfold thread_step; rewrite Hpc, Hp; reflexivity
                       |repeat split|reflexivity|exact Hl].
Qed.

Lemma leaves_L64 w t j :
  at_pc t = Some (start_L64 j) -> running (prod w) = false ->
  exists w', leaves 4 w t w' /\ n w' = n w.
Proof.
  intros Hpc Hdown.
  destruct (Encode NewJob j) as [job [e|]] eqn:He.
  - destruct (leaves_notifyDone w (goto (start_notifyDone j (Some e)) t) j (Some e)
                eq_refl Hdown) as (w' & (k' & Hk & Hl) & Hn).
    exists w'. split; [|exact Hn].
    eapply leaves_after; [unfold thread_step; rewrite Hpc, He; reflexivity
                         |repeat split|reflexivity|].
    exists k'. split; [lia|exact Hl].
  - destruct (leaves_L69 w (goto (start_L69 j job) t) j job eq_refl Hdown)
      as (w' & Hl & Hn).
    exists w'. split; [|exact Hn].
    eapply leaves_after; [unfold thread_step; rewrite Hpc, He; reflexivity
                         |repeat split|reflexivity|exact Hl].
Qed.

Lemma leaves_L58 w t j err :
  at_pc t = Some (start_L58 j err) -> running (prod w) = false ->
  exists w', leaves 5 w t w' /\ n w' = n w.
Proof.
  intros Hpc Hdown. destruct err as [e|].
  - exists w. split; [|reflexivity].
    eapply leaves_after; [unfold thread_step; rewrite Hpc; reflexivity
                         |repeat split|reflexivity|].
    destruct (leaves_L53 w (goto start_L53 t) eq_refl Hdown) as (k' & Hk & Hl).
    exists k'. split; [lia|exact Hl].
  - destruct (leaves_L64 w (goto (start_L64 j) t) j eq_refl Hdown) as (w' & Hl & Hn).
    exists w'. split; [|exact Hn].
    eapply leaves_after; [unfold thread_step; rewrite Hpc; reflexivity
                         |repeat split|reflexivity|exact Hl].
Qed.

Lemma winds_down w t :
  in_loop t = true -> running (prod w) = false ->
  exists w', leaves 6 w t w' /\
             (n w' = n w \/ n w' = wrap64 (n w + 1)).
Proof.
  intros Hin Hdown. unfold in_loop in Hin.
  destruct (at_pc t) as [[]|] eqn:Hpc; try discriminate.
  - exists w. split; [|left; reflexivity].
    destruct (leaves_L53 w t Hpc Hdown) as (k' & Hk & Hl).
    exists k'. split; [lia|exact Hl].
  - destruct (leaves_L58 {| prod := prod w; n := wrap64 (n w + 1); user := user w |}
                (goto (start_L58 {| RepositoryID := wrap64 (n w + 1) |} None) t)
                _ _ eq_refl Hdown) as (w' & Hl & Hn).
    exists w'. split; [|right; exact Hn].
    eapply leaves_after; [unfold thread_step; rewrite Hpc; reflexivity
                         |repeat split|reflexivity|exact Hl].
  - destruct (leaves_L58 w t j err Hpc Hdown) as (w' & (k' & Hk & Hl) & Hn).
    exists w'. split; [|left; exact Hn]. exists k'. split; [lia|exact Hl].
  - destruct (leaves_L64 w t j Hpc Hdown) as (w' & (k' & Hk & Hl) & Hn).
    exists w'. split; [|left; exact Hn]. exists k'. split; [lia|exact Hl].
  - destruct (leaves_L69 w t j job Hpc Hdown) as (w' & (k' & Hk & Hl) & Hn).
    exists w'. split; [|left; exact Hn]. exists k'. split; [lia|exact Hl].
  - destruct (leaves_notifyDone w t j err Hpc Hdown) as (w' & (k' & Hk & Hl) & Hn).
    exists w'. split; [|left; exact Hn]. exists k'. split; [lia|exact Hl].
  - exists w. split; [|left; reflexivity].
    exists 0. split; [lia|]. split; [|repeat split].
    simpl. destruct t as [o td rt]. simpl in Hpc. subst o. reflexivity.
Qed.

(** X6.  With the flag down, a goroutine between [wg.Add] and
    [wg.Done] needs at most six moves of its own to stand at the
    deferred [wg.Done]: it finishes the round it is in and starts no
    other.  On the way it leaves the flag, the wait group, the guards
    and the callback as they are and calls the source at most once. *)
Theorem loop_winds_down w t :
  in_loop t = true -> running (prod w) = false ->
  exists w', leaves 6 w t w' /\
             (n w' = n w \/ n w' = wrap64 (n w + 1)).
Proof. apply winds_down. Qed.

Lemma exec_solo k : forall c i t w' t',
  threads c !! i = Some t ->
  steps k (world c) t = Some (w', t') ->
  exec c (replicate k i) = {| world := w'; threads := <[i:=t']> (threads c) |}.
Proof.
  induction k as [|k IH]; intros c i t w' t' Hi Hrun.
  - simpl in *. simplify_eq. rewrite list_insert_id by exact Hi.
    destruct c; reflexivity.
  - simpl in Hrun. destruct (step (world c) t) as [[w1 t1]|] eqn:Hs; [|discriminate].
    change (exec c (replicate (S k) i)) with (exec (sstep c i) (replicate k i)).
    assert (Hc1 : sstep c i = {| world := w1; threads := <[i:=t1]> (threads c) |}).
    { unfold sched_step. rewrite Hi, Hs. reflexivity. }
    rewrite Hc1.
    erewrite IH; [|simpl; apply list_lookup_insert_eq; eapply lookup_lt_Some; exact Hi
                  |exact Hrun].
    simpl. rewrite list_insert_insert_eq. reflexivity.
Qed.

(** X7.  [Stop] can always finish.  When the loop is running and
    [Stop] has not been called, a goroutine that is about to call
    [Stop] has a schedule of at most thirteen moves (its own and those
    of the loop) after which its call has returned, [IsRunning] answers
    false, both guards are used, the wait group is at zero and the body
    of [start] is over. *)
Theorem Stop_returns c j tj rest :
  LoopRunning c ->
  threads c !! j = Some tj -> at_pc tj = None -> todo tj = Stop :: rest ->
  exists sched,
    length sched <= 13 /\
    let c' := exec c sched in
    threads c' !! j
      = Some {| at_pc := None; todo := rest; returned := returned tj ++ [Stop] |} /\
    IsRunning (prod (world c')) = false /\
    stopOnce (prod (world c')) = Finished /\
    startOnce (prod (world c')) = Finished /\
    wg (prod (world c')) = 0%Z /\
    loop_exited c'.
Proof.
  intros Hlr Hj Hpcj Htodo.
  pose proof (LoopRunning_stop_inv c Hlr) as Hinv.
  destruct Hlr as [Hstart Hstop Hrun Hwg Hloop _ _ _].
  destruct (count_exists in_loop (threads c)) as (i & ti & Hi & Hin); [lia|].
  assert (Hij : i <> j).
  { intros ->. rewrite Hj in Hi. simplify_eq. unfold in_loop in Hin.
    rewrite Hpcj in Hin. discriminate. }
  destruct c as [w ts]. simpl in *.
  (* Stop: the call, the guard, line 79 *)
  set (w1 := with_prod (set_running false) (with_prod (set_stopOnce Busy) w)).
  set (tj1 := {| at_pc := Some stop_L80; todo := rest; returned := returned tj |}
              : Thread QJob).
  assert (H1 : steps 3 w tj = Some (w1, tj1)).
  { simpl. unfold thread_step at 1. rewrite Hpcj, Htodo.
    unfold thread_step at 1. simpl. rewrite Hstop. reflexivity. }
  (* the loop sees the flag and leaves *)
  destruct (winds_down w1 ti Hin eq_refl)
    as (w2 & (k & Hk & H2 & C1 & C2 & C3 & C4 & C5) & _).
  set (w3 := with_prod (set_startOnce Finished) (with_prod (set_wg (wg (prod w2) - 1)) w2)).
  assert (H3 : steps 2 w2 (goto start_deferred ti) = Some (w3, ret Start ti))
    by reflexivity.
  assert (Hwg3 : wg (prod w3) = 0%Z).
  { simpl. rewrite C2. simpl. lia. }
  (* Stop finds the wait group at zero *)
  set (w4 := with_prod (set_stopOnce Finished) w3).
  assert (H4 : steps 2 w3 tj1 = Some (w4, ret Stop tj1)).
  { simpl. unfold thread_step at 1. simpl.
    destruct (decide (wg (prod w2) - 1 = 0)%Z) as [_|Hne]; [reflexivity|].
    exfalso. apply Hne. exact Hwg3. }
  exists (replicate 3 j ++ replicate k i ++ replicate 2 i ++ replicate 2 j).
  split; [rewrite !length_app, !length_replicate; lia|].
  assert (Hfinal :
    exec {| world := w; threads := ts |}
      (replicate 3 j ++ replicate k i ++ replicate 2 i ++ replicate 2 j)
    = {| world := w4;
         threads := <[j:=ret Stop tj1]> (<[i:=ret Start ti]> (<[j:=tj1]> ts)) |}).
  { rewrite !(run_app NewJob Encode Publish).
    rewrite (exec_solo 3 {| world := w; threads := ts |} j tj w1 tj1 Hj H1).
    cbn [threads].
    rewrite (exec_solo k {| world := w1; threads := <[j:=tj1]> ts |}
               i ti w2 (goto start_deferred ti));
      [|cbn [threads]; rewrite list_lookup_insert_ne by congruence; exact Hi|exact H2].
    cbn [threads].
    rewrite (exec_solo 2
               {| world := w2; threads := <[i:=goto start_deferred ti]> (<[j:=tj1]> ts) |}
               i (goto start_deferred ti) w3 (ret Start ti));
      [|cbn [threads]; apply list_lookup_insert_eq; rewrite length_insert;
        eapply lookup_lt_Some; exact Hi|exact H3].
    cbn [threads]. rewrite list_insert_insert_eq.
    rewrite (exec_solo 2
               {| world := w3; threads := <[i:=ret Start ti]> (<[j:=tj1]> ts) |}
               j tj1 w4 (ret Stop tj1));
      [|cbn [threads]; rewrite list_lookup_insert_ne by congruence;
        apply list_lookup_insert_eq; eapply lookup_lt_Some; exact Hj|exact H4].
    reflexivity. }
  pose proof (stop_inv_run NewJob Encode Publish
                (replicate 3 j ++ replicate k i ++ replicate 2 i ++ replicate 2 j)
                _ Hinv) as Hinv'.
  cbv zeta. rewrite Hfinal in *. clear Hfinal.
  destruct Hinv' as (_ & Hpre & _ & Hcase). simpl in Hpre, Hcase.
  split; [simpl; apply list_lookup_insert_eq; rewrite !length_insert;
          eapply lookup_lt_Some; exact Hj|].
  split; [simpl; rewrite C1; reflexivity|].
  split; [reflexivity|]. split; [reflexivity|]. split; [exact Hwg3|].
  unfold loop_exited. simpl. lia.
Qed.

(** X10.  Among successive calls of [next], two calls less than
    [2^64] apart return jobs with different identifiers. *)
Theorem next_ids_are_distinct k n0 i j a b :
  i < j -> j < k -> (Z.of_nat j - Z.of_nat i < uint64_mod)%Z ->
  nexts k n0 !! i = Some a -> nexts k n0 !! j = Some b ->
  RepositoryID a <> RepositoryID b.
Proof.
  intros Hij Hjk Hgap Ha Hb.
  rewrite (nexts_lookup k n0 i) in Ha by lia.
  rewrite (nexts_lookup k n0 j) in Hb by lia.
  simplify_eq/=. unfold wrap64, uint64_mod in *. intros Heq.
  assert (Hm : ((n0 + Z.of_nat j + 1 - (n0 + Z.of_nat i + 1)) mod 2 ^ 64 = 0)%Z).
  { rewrite Zminus_mod, Heq, Z.sub_diag. reflexivity. }
  replace (n0 + Z.of_nat j + 1 - (n0 + Z.of_nat i + 1))%Z
    with (Z.of_nat j - Z.of_nat i)%Z in Hm by lia.
  rewrite Z.mod_small in Hm by lia. lia.
Qed.

(** X11.  [Stop] while [Start] is between line 49 and line 50.  The
    flag is up but the wait group is still at zero, so the five moves
    of [Stop] go through without waiting: its call has returned while
    the body of [start] is not over.  The goroutine of [start] then
    adds itself to the wait group, finds the flag down at its first
    test and returns in four moves, without pulling, publishing or
    reporting any job. *)
Theorem Stop_during_the_prologue c i ti j tj rest :
  threads c !! i = Some ti -> at_pc ti = Some start_L50 ->
  threads c !! j = Some tj -> at_pc tj = None -> todo tj = Stop :: rest ->
  stopOnce (prod (world c)) = Fresh -> wg (prod (world c)) = 0%Z ->
  let c1 := exec c (replicate 5 j) in
  let c2 := exec c1 (replicate 4 i) in
  (threads c1 !! j
     = Some {| at_pc := None; todo := rest; returned := returned tj ++ [Stop] |} /\
   IsRunning (prod (world c1)) = false /\
   ~ loop_exited c1) /\
  (threads c2 !! i = Some (ret Start ti) /\
   IsRunning (prod (world c2)) = false /\
   wg (prod (world c2)) = 0%Z /\
   startOnce (prod (world c2)) = Finished /\
   n (world c2) = n (world c) /\
   queue (prod (world c2)) = queue (prod (world c)) /\
   user (world c2) = user (world c)).
Proof.
  intros Hi Hpci Hj Hpcj Htodo Hfresh Hwg c1 c2.
  assert (Hij : i <> j).
  { intros ->. rewrite Hj in Hi. injection Hi as ->. congruence. }
  assert (Hji : j <> i) by (intros ->; apply Hij; reflexivity).
  set (w := world c) in *. set (ts := threads c) in *.
  set (w1 := with_prod (set_stopOnce Finished)
               (with_prod (set_running false) (with_prod (set_stopOnce Busy) w))).
  set (tj1 := {| at_pc := None; todo := rest; returned := returned tj ++ [Stop] |}
              : Thread QJob).
  assert (H1 : steps 5 w tj = Some (w1, tj1)).
  { cbn [thread_steps]. unfold thread_step at 1. rewrite Hpcj, Htodo.
    unfold thread_step at 1. cbn [at_pc entry]. rewrite Hfresh.
    unfold thread_step at 1. cbn [at_pc goto].
    unfold thread_step at 1. cbn [at_pc goto].
    change (wg (prod (with_prod (set_running false) (with_prod (set_stopOnce Busy) w))))
      with (wg (prod w)).
    destruct (decide (wg (prod w) = 0%Z)); [reflexivity|contradiction]. }
  assert (Hc1 : c1 = {| world := w1; threads := <[j:=tj1]> ts |}).
  { unfold c1. apply (exec_solo 5 c j tj); assumption. }
  set (w2 := with_prod (set_startOnce Finished)
               (with_prod (set_wg (wg (prod w) + 1 - 1))
                  (with_prod (set_wg (wg (prod w) + 1)) w1))).
  assert (H2 : steps 4 w1 ti = Some (w2, ret Start ti)).
  { cbn [thread_steps]. unfold thread_step at 1. rewrite Hpci. reflexivity. }
  assert (Hc2 : c2 = {| world := w2; threads := <[i:=ret Start ti]> (<[j:=tj1]> ts) |}).
  { unfold c2. rewrite Hc1.
    apply (exec_solo 4 {| world := w1; threads := <[j:=tj1]> ts |} i ti);
      [cbn [threads]; rewrite list_lookup_insert_ne by exact Hji; exact Hi|exact H2]. }
  clearbody c1 c2. subst c1 c2. cbn [world threads prod].
  split.
  - split; [apply list_lookup_insert_eq; eapply lookup_lt_Some; exact Hj|].
    split; [reflexivity|].
    unfold loop_exited. cbn [threads].
    assert (1 <= count at_L50 (<[j:=tj1]> ts)); [|lia].
    eapply count_pos.
    + eapply list_elem_of_lookup_2. rewrite list_lookup_insert_ne by exact Hji. exact Hi.
    + unfold at_L50. rewrite Hpci. reflexivity.
  - split; [apply list_lookup_insert_eq; rewrite length_insert;
            eapply lookup_lt_Some; exact Hi|].
    split; [reflexivity|]. split; [simpl; lia|]. repeat split.
Qed.

End LifecycleFacts.

(** * Facts about what a logging notifier sees *)

Section OrderedFacts.

Context {QJob Q : Type}.
Variable NewJob : QJob.
Variable Encode : QJob -> Job -> QJob * option error.
Variable Publish : Q -> QJob -> Q * option error.

Local Abbreviation Log := (list (Job * option error)).
Local Abbreviation step := (thread_step (U:=Log) NewJob Encode Publish).
Local Abbreviation sstep := (sched_step (U:=Log) NewJob Encode Publish).
Local Abbreviation exec := (run (U:=Log) NewJob Encode Publish).

Implicit Types (w : World Q Log) (t : Thread QJob) (c : Config QJob Q Log).

Lemma ids_from_S n0 k :
  ids_from n0 (S k) = ids_from n0 k ++ [wrap64 (n0 + Z.of_nat k + 1)].
Proof. unfold ids_from. rewrite seq_S, map_app. reflexivity. Qed.

Lemma ids_from_lookup n0 k i :
  i < k -> ids_from n0 k !! i = Some (wrap64 (n0 + Z.of_nat i + 1)).
Proof.
  intros Hi. unfold ids_from. rewrite list_lookup_fmap.
  rewrite lookup_seq_lt by exact Hi. reflexivity.
Qed.

Lemma holds_job_past_L49 t : holds_job t = true -> past_L49 t = true.
Proof.
  unfold holds_job, holding, past_L49, at_L50, in_loop, at_Start_return.
  destruct (at_pc t) as [[]|]; simpl; auto.
Qed.

Lemma one_in_start c : start_inv c -> count past_L49 (threads c) <= 1.
Proof. unfold start_inv. destruct (startOnce _); lia. Qed.

(** A goroutine of the loop is the only one that can hold a job. *)
Lemma only_holder c i t i2 t2 :
  start_inv c ->
  threads c !! i = Some t -> past_L49 t = true ->
  threads c !! i2 = Some t2 -> holds_job t2 = true -> i2 = i.
Proof.
  intros Hinv Hi Hp Hi2 Hh.
  eapply (count_unique past_L49); eauto using one_in_start, holds_job_past_L49.
Qed.

Lemma nobody_else_holds c i t :
  start_inv c ->
  threads c !! i = Some t -> past_L49 t = true -> holds_job t = false ->
  count holds_job (threads c) = 0.
Proof.
  intros Hinv Hi Hp Hh.
  destruct (decide (1 <= count holds_job (threads c))) as [H|H]; [|lia].
  apply count_exists in H as (i2 & t2 & Hi2 & Hh2).
  assert (i2 = i) by (eapply only_holder; eauto). subst i2.
  rewrite Hi in Hi2. simplify_eq. congruence.
Qed.

(** A move that leaves the counter, the log and the job in hand as
    they were. *)
Lemma order_inv_frame n0 w ts i t w' t' :
  ts !! i = Some t ->
  step w t = Some (w', t') ->
  n w' = n w -> user w' = user w ->
  holding t' = holding t -> holds_source_error t' = holds_source_error t ->
  order_inv n0 {| world := w; threads := ts |} ->
  order_inv n0 {| world := w'; threads := <[i:=t']> ts |}.
Proof.
  intros Hi Hs Hn Hu Hh He (Hd & Herr & Hstart & Hlog & Hnone & Hsome).
  unfold order_inv in *. simpl in *.
  assert (Hd' : Notifiers_Done (prod w') = Notifiers_Done (prod w))
    by (eapply notifier_step; exact Hs).
  assert (Hj : holds_job t' = holds_job t) by (unfold holds_job; rewrite Hh; reflexivity).
  pose proof (count_insert holds_source_error ts i t t' _ _ Hi eq_refl He) as C1.
  pose proof (count_insert holds_job ts i t t' _ _ Hi eq_refl Hj) as C2.
  apply Nat.add_cancel_r in C1, C2.
  rewrite Hd', Hn, Hu, C1, C2.
  split; [exact Hd|]. split; [exact Herr|].
  split; [eapply start_inv_step; eauto|].
  split; [exact Hlog|]. split; [exact Hnone|].
  intros i0 t0 j Hi0 Hh0.
  apply list_lookup_insert_Some in Hi0.
  destruct Hi0 as [(-> & <- & _) | (Hne & Hi0)]; [|eauto].
  rewrite Hh in Hh0. eauto.
Qed.

(** The move a goroutine makes from a line that is known. *)
Ltac open_step Hs Hpc :=
  unfold thread_step, next in Hs; rewrite Hpc in Hs;
  repeat match type of Hs with
    | context [match ?x with _ => _ end] => destruct x eqn:?
    | (let '(_, _) := ?x in _) = _ => destruct x eqn:?
    end;
  simplify_eq/=;
  try match goal with c0 : call |- _ => destruct c0 end.

Lemma order_inv_step n0 w ts i t w' t' :
  ts !! i = Some t ->
  step w t = Some (w', t') ->
  order_inv n0 {| world := w; threads := ts |} ->
  order_inv n0 {| world := w'; threads := <[i:=t']> ts |}.
Proof.
  intros Hi Hs Hinv.
  destruct (at_pc t) as [l|] eqn:Hpc.
  2: { eapply order_inv_frame; eauto; open_step Hs Hpc;
       first [reflexivity | where_is Hpc]. }
  pose proof Hinv as (Hd & Herr & Hstart & Hlog & Hnone & Hsome).
  simpl in Hd, Herr, Hstart, Hlog, Hnone, Hsome.
  assert (Hstart' : start_inv {| world := w'; threads := <[i:=t']> ts |})
    by (eapply start_inv_step; eauto).
  assert (Hd' : Notifiers_Done (prod w') = Notifiers_Done (prod w))
    by (eapply notifier_step; exact Hs).
  destruct l.
  all: try (eapply order_inv_frame; eauto; open_step Hs Hpc;
            first [reflexivity | where_is Hpc]; fail).
  - (* line 57: a job is pulled *)
    unfold thread_step in Hs. rewrite Hpc in Hs. simpl in Hs. simplify_eq.
    assert (Hp : past_L49 t = true) by where_is Hpc.
    assert (Hh : holds_job t = false) by where_is Hpc.
    pose proof (nobody_else_holds {| world := w; threads := ts |} i t Hstart Hi Hp Hh) as Hz.
    simpl in Hz. specialize (Hnone Hz).
    set (t' := goto (start_L58 {| RepositoryID := wrap64 (n w + 1) |} None) t) in *.
    pose proof (count_insert holds_source_error ts i t t' _ _ Hi
                  ltac:(where_is Hpc) eq_refl) as C1.
    pose proof (count_insert holds_job ts i t t' _ _ Hi
                  ltac:(where_is Hpc) eq_refl) as C2.
    simpl in C1, C2.
    assert (Hnew : wrap64 (n w + 1) = wrap64 (n0 + Z.of_nat (length (user w)) + 1)).
    { unfold wrap64 in *. rewrite <- (Zplus_mod_idemp_l (n w)), Hnone.
      rewrite Zplus_mod_idemp_l. reflexivity. }
    unfold order_inv. simpl.
    split; [exact Hd|]. split; [lia|]. split; [exact Hstart'|].
    split; [exact Hlog|]. split; [intros; lia|].
    intros i0 t0 j Hi0 Hh0.
    apply list_lookup_insert_Some in Hi0.
    destruct Hi0 as [(-> & <- & _) | (Hne & Hi0)].
    + subst t'. unfold holding in Hh0. cbn [goto at_pc] in Hh0.
      injection Hh0 as <-. split; [reflexivity|exact Hnew].
    + exfalso. assert (holds_job t0 = false) by (eapply count_zero; eauto).
      unfold holds_job in *. rewrite Hh0 in *. discriminate.
  - (* line 58 *)
    destruct err as [e|].
    + exfalso. assert (holds_source_error t = false) by (eapply count_zero; eauto).
      unfold holds_source_error in *. rewrite Hpc in *. discriminate.
    + eapply order_inv_frame; eauto; open_step Hs Hpc;
        first [reflexivity | where_is Hpc].
  - (* the notifier is called *)
    unfold thread_step in Hs. rewrite Hpc in Hs. simplify_eq.
    assert (Hh : holding t = Some j) by where_is Hpc.
    destruct (Hsome i t j Hi Hh) as [Hid Hn].
    set (t' := goto start_L53 t) in *.
    pose proof (count_insert holds_source_error ts i t t' _ _ Hi
                  ltac:(where_is Hpc) eq_refl) as C1.
    pose proof (count_insert holds_job ts i t t' _ _ Hi
                  ltac:(where_is Hpc) eq_refl) as C2.
    simpl in C1, C2.
    unfold order_inv. simpl. unfold notifyDone. rewrite Hd. unfold record_Done.
    rewrite length_app. simpl.
    replace (length (user w) + 1) with (S (length (user w))) by lia.
    split; [reflexivity|]. split; [lia|]. split; [exact Hstart'|].
    split; [|split].
    + unfold logged_ids in *. rewrite map_app, Hlog, ids_from_S. simpl.
      rewrite Hid, Hn. reflexivity.
    + intros _. rewrite Hn. unfold wrap64. rewrite Zmod_mod. f_equal. lia.
    + intros i0 t0 j0 Hi0 Hh0. exfalso.
      apply list_lookup_insert_Some in Hi0.
      destruct Hi0 as [(-> & <- & _) | (Hne & Hi0)]; [discriminate|].
      apply Hne. symmetry.
      eapply (only_holder {| world := w; threads := ts |} i t i0 t0); eauto.
      * where_is Hpc.
      * unfold holds_job. rewrite Hh0. reflexivity.
Qed.

Lemma order_inv_run n0 sched : forall c, order_inv n0 c -> order_inv n0 (exec c sched).
Proof.
  induction sched as [|i sched IH]; intros c Hinv; [exact Hinv|].
  simpl. apply IH.
  destruct (sched_step_cases NewJob Encode Publish c i)
    as [-> | (t & w' & t' & Hi & Hs & ->)]; [exact Hinv|].
  destruct c as [w ts]. eapply order_inv_step; eauto.
Qed.

Lemma initial_order_inv (q : Q) n0 progs :
  order_inv n0 (initial (QJob:=QJob) (Some record_Done) q n0 [] progs).
Proof.
  unfold order_inv. simpl.
  split; [reflexivity|]. split; [apply count_initial_zero; reflexivity|].
  split; [apply initial_start_inv|]. split; [reflexivity|].
  split; [intros _; f_equal; lia|].
  intros i t j Hi Hh. exfalso.
  rewrite list_lookup_fmap in Hi. destruct (progs !! i); simplify_eq/=.
Qed.

(** X8.  For a producer that is the only one of its process, so
    that nothing else writes the package counter [n].  With a callback
    that logs its calls, in every run on a new
    producer the [i]-th call ever made reports the job whose identifier
    is the initial counter plus [i + 1] (wrapped): every job pulled is
    reported once, in the order pulled, none is skipped.  The counter
    is ahead of the log by at most the one job in hand, and at most one
    goroutine has a job in hand. *)
Theorem jobs_are_reported_in_order (q : Q) n0 progs sched :
  let c := exec (initial (Some record_Done) q n0 [] progs) sched in
  let log := user (world c) in
  (forall i j err, log !! i = Some (j, err) ->
     RepositoryID j = wrap64 (n0 + Z.of_nat i + 1)) /\
  (wrap64 (n (world c)) = wrap64 (n0 + Z.of_nat (length log)) \/
   n (world c) = wrap64 (n0 + Z.of_nat (length log) + 1)) /\
  count holds_job (threads c) <= 1.
Proof.
  intros c log.
  pose proof (order_inv_run n0 sched _ (initial_order_inv q n0 progs))
    as (_ & _ & Hstart & Hlog & Hnone & Hsome).
  fold c in Hstart, Hlog, Hnone, Hsome. fold log in Hlog, Hnone, Hsome.
  assert (Hle : count holds_job (threads c) <= 1).
  { etransitivity; [apply (count_le holds_job past_L49), holds_job_past_L49|].
    apply one_in_start, Hstart. }
  split; [|split; [|exact Hle]].
  - intros i j err Hi.
    assert (Hid : logged_ids log !! i = Some (RepositoryID j)).
    { unfold logged_ids. rewrite list_lookup_fmap, Hi. reflexivity. }
    rewrite Hlog, ids_from_lookup in Hid by (eapply lookup_lt_Some; exact Hi).
    congruence.
  - destruct (decide (count holds_job (threads c) = 0)) as [Hz|Hnz]; [left; auto|].
    right. destruct (count_exists holds_job (threads c)) as (i & t & Hi & Hh); [lia|].
    unfold holds_job in Hh. destruct (holding t) as [j|] eqn:Hj; [|discriminate].
    eapply Hsome; eauto.
Qed.

End OrderedFacts.

(** * The further facts at work on the small producer *)

Lemma no_deadlock_witness :
  let c := Demo.exec Demo.start_then_stop [0; 0; 0; 0; 1; 1; 1; 1] in
  let t := {| at_pc := Some stop_L80; todo := [Stop]; returned := [] |} in
  threads c !! 1 = Some t /\
  waiting Demo.NewJob Demo.Encode Demo.Publish (world c) t = true /\
  exists i' t', threads c !! i' = Some t' /\
    can_move Demo.NewJob Demo.Encode Demo.Publish (world c) t' = true.
Proof.
  split; [reflexivity|]. split; [reflexivity|].
  exact (no_deadlock Demo.NewJob Demo.Encode Demo.Publish
           (Some Demo.log_Done) [] 0%Z [] [[Start; Start]; [Stop; Stop]]
           [0; 0; 0; 0; 1; 1; 1; 1] 1
           {| at_pc := Some stop_L80; todo := [Stop]; returned := [] |}
           eq_refl eq_refl).
Defined.

Lemma running_means_looping_witness :
  IsRunning (prod (world Demo.looping)) = true /\
  startOnce (prod (world Demo.looping)) = Busy /\
  count at_L50 (threads Demo.looping) + count iterating (threads Demo.looping) = 1 /\
  ~ loop_exited Demo.looping.
Proof.
  split; [reflexivity|].
  destruct (running_means_looping Demo.NewJob Demo.Encode Demo.Publish
              (Some Demo.log_Done) [] 0%Z [] [[Start; Start]; [Stop; Stop]]
              [0; 0; 0; 0] eq_refl) as (H1 & H2 & H3 & _).
  split; [exact H1|]. split; [exact H2|exact H3].
Defined.

Lemma Start_returns_only_after_Stop_witness :
  let c := Demo.exec Demo.start_then_stop Demo.three_rounds in
  (exists t, t ∈ threads c /\ returned t = [Start; Start]) /\
  stopOnce (prod (world c)) <> Fresh /\
  startOnce (prod (world c)) = Finished /\
  IsRunning (prod (world c)) = false /\
  loop_exited c.
Proof.
  set (t := {| at_pc := None; todo := []; returned := [Start; Start] |} : Thread Demo.QJob).
  assert (Hin : t ∈ threads (Demo.exec Demo.start_then_stop Demo.three_rounds)).
  { apply list_elem_of_lookup. exists 0. reflexivity. }
  split; [exists t; split; [exact Hin|reflexivity]|].
  apply (Start_returns_only_after_Stop Demo.NewJob Demo.Encode Demo.Publish
           (Some Demo.log_Done) [] 0%Z [] [[Start; Start]; [Stop; Stop]]
           Demo.three_rounds t Hin).
  apply (bool_decide_eq_true_1 _). reflexivity.
Defined.

Lemma loop_winds_down_witness :
  let w := with_prod (set_running false) (Demo.a_world_with []) in
  in_loop (Demo.with_job 7) = true /\
  exists w', leaves_within Demo.NewJob Demo.Encode Demo.Publish 6 w (Demo.with_job 7) w' /\
             (n w' = n w \/ n w' = wrap64 (n w + 1)).
Proof.
  split; [reflexivity|].
  exact (loop_winds_down Demo.NewJob Demo.Encode Demo.Publish
           (with_prod (set_running false) (Demo.a_world_with []))
           (Demo.with_job 7) eq_refl eq_refl).
Defined.

Lemma Stop_returns_witness :
  LoopRunning Demo.looping /\
  exists sched,
    length sched <= 13 /\
    threads (Demo.exec Demo.looping sched) !! 1
      = Some {| at_pc := None; todo := [Stop]; returned := [Stop] |} /\
    IsRunning (prod (world (Demo.exec Demo.looping sched))) = false /\
    loop_exited (Demo.exec Demo.looping sched).
Proof.
  split; [exact looping_is_running|].
  destruct (Stop_returns Demo.NewJob Demo.Encode Demo.Publish Demo.looping 1
              {| at_pc := None; todo := [Stop; Stop]; returned := [] |} [Stop]
              looping_is_running eq_refl eq_refl eq_refl)
    as (sched & Hlen & Hj & Hrun & _ & _ & _ & Hex).
  exists sched. split; [exact Hlen|]. split; [exact Hj|]. split; [exact Hrun|exact Hex].
Defined.

Lemma next_ids_are_distinct_witness :
  nexts 3 (uint64_mod - 2) !! 0 = Some {| RepositoryID := uint64_mod - 1 |} /\
  nexts 3 (uint64_mod - 2) !! 2 = Some {| RepositoryID := 1 |} /\
  (uint64_mod - 1 <> 1)%Z.
Proof.
  split; [reflexivity|]. split; [reflexivity|].
  exact (next_ids_are_distinct 3 (uint64_mod - 2) 0 2
           {| RepositoryID := uint64_mod - 1 |} {| RepositoryID := 1 |}
           ltac:(lia) ltac:(lia) ltac:(unfold uint64_mod; lia) eq_refl eq_refl).
Defined.

Lemma Stop_during_the_prologue_witness :
  let c := Demo.exec Demo.start_then_stop [0; 0; 0] in
  let c1 := Demo.exec c (replicate 5 1) in
  let c2 := Demo.exec c1 (replicate 4 0) in
  IsRunning (prod (world c)) = true /\
  map returned (threads c1) = [[]; [Stop]] /\
  ~ loop_exited c1 /\
  map returned (threads c2) = [[Start]; [Stop]] /\
  n (world c2) = 0%Z /\ queue (prod (world c2)) = [] /\ user (world c2) = [].
Proof.
  destruct (Stop_during_the_prologue Demo.NewJob Demo.Encode Demo.Publish
              (Demo.exec Demo.start_then_stop [0; 0; 0])
              0 {| at_pc := Some start_L50; todo := [Start]; returned := [] |}
              1 {| at_pc := None; todo := [Stop; Stop]; returned := [] |} [Stop]
              eq_refl eq_refl eq_refl eq_refl eq_refl eq_refl eq_refl)
    as ((_ & _ & Hex) & (_ & _ & _ & _ & Hn & Hq & Hu)).
  split; [reflexivity|]. split; [reflexivity|]. split; [exact Hex|].
  split; [reflexivity|]. split; [exact Hn|]. split; [exact Hq|exact Hu].
Defined.

(** * Facts about the consumer command *)

Module ConsumerFacts.

Import Consumer.

(** [HasPrefix] is true exactly on the strings that begin with the
    prefix. *)
Lemma HasPrefix_spec (p : string) : forall s : string,
  HasPrefix s p = true <-> exists rest, s = p +:+ rest.
Proof.
  unfold HasPrefix.
  induction p as [|a p IH]; intros s.
  - split; [intros _; exists s; reflexivity|intros _].
    destruct s; reflexivity.
  - destruct s as [|b s].
    + split; [discriminate|intros [rest Hrest]; discriminate].
    + change (String.length (String a p) <=? String.length (String b s))%nat
        with (String.length p <=? String.length s)%nat.
      change (String.substring 0 (String.length (String a p)) (String b s))
        with (String b (String.substring 0 (String.length p) s)).
      change (String.eqb (String b (String.substring 0 (String.length p) s)) (String a p))
        with (if Ascii.eqb b a
              then String.eqb (String.substring 0 (String.length p) s) p
              else false).
      destruct (Ascii.eqb_spec b a) as [->|Hne].
      * rewrite IH. split.
        -- intros [rest ->]. exists rest. reflexivity.
        -- intros [rest Hrest]. exists rest.
           change (String a s = String a (p +:+ rest)) in Hrest. congruence.
      * rewrite andb_false_r. split; [discriminate|].
        intros [rest Hrest].
        change (String b s = String a (p +:+ rest)) in Hrest. congruence.
Qed.

Section Transactioner.

Context {Filesystem URL : Type}.
Variable Chroot : Filesystem -> string -> result Filesystem.
Variable osfs_New : string -> Filesystem.
Variable url_Parse : string -> result URL.
Variable url_Path : URL -> string.
Variable url_set_Path : string -> URL -> URL.
Variable url_String : URL -> string.

Local Abbreviation remote :=
  (remote_backend osfs_New url_Parse url_Path url_set_Path url_String).
Local Abbreviation new_txer :=
  (newRootedTransactioner Chroot osfs_New url_Parse url_Path url_set_Path url_String).

(** C7.  The backend is chosen in one place, from
    [RootRepositoriesDir] alone.  The HDFS branch is taken exactly
    when the string begins with ["hdfs://"]: then the backend is
    the HDFS one built from the parsed URL, or construction stops
    on the error of [url.Parse]; otherwise the backend is the local
    filesystem rooted at that directory, and this never fails.  A
    transactioner that is returned carries that backend and no
    other; the only errors are those of [Chroot] and of
    [url.Parse]. *)
Theorem backend_selection (c : consumerSubcmd) (tmp : Filesystem) :
  let dir := RootRepositoriesDir c in
  (HasPrefix dir "hdfs://" = true <-> exists rest, dir = "hdfs://" +:+ rest) /\
  match remote c with
  | Ok fs =>
      is_hdfs fs = HasPrefix dir "hdfs://" /\
      (if HasPrefix dir "hdfs://"
       then exists u, url_Parse dir = Ok u /\
              fs = NewHDFSFs (url_String (url_set_Path "" u)) (url_Path u)
                     (RootRepositoriesTempDir c)
       else fs = NewLocalFs (osfs_New dir))
  | Err e => HasPrefix dir "hdfs://" = true /\ url_Parse dir = Err e
  end /\
  match new_txer c tmp with
  | Ok txer =>
      remote c = Ok (backend txer) /\
      is_hdfs (backend txer) = HasPrefix dir "hdfs://" /\
      exists tmp', Chroot tmp "transactioner" = Ok tmp' /\
        txer = NewSivaRootedTransactioner
                 (NewCopier tmp' (backend txer) (BucketSize c))
  | Err e =>
      Chroot tmp "transactioner" = Err e \/
      (HasPrefix dir "hdfs://" = true /\ url_Parse dir = Err e)
  end.
Proof.
  intros dir. split; [apply HasPrefix_spec|].
  assert (Hremote :
    match remote c with
    | Ok fs =>
        is_hdfs fs = HasPrefix dir "hdfs://" /\
        (if HasPrefix dir "hdfs://"
         then exists u, url_Parse dir = Ok u /\
                fs = NewHDFSFs (url_String (url_set_Path "" u)) (url_Path u)
                       (RootRepositoriesTempDir c)
         else fs = NewLocalFs (osfs_New dir))
    | Err e => HasPrefix dir "hdfs://" = true /\ url_Parse dir = Err e
    end).
  { unfold remote_backend. fold dir.
    destruct (HasPrefix dir "hdfs://") eqn:Hp.
    - destruct (url_Parse dir) as [u|e] eqn:Hu; simpl; eauto.
    - simpl. auto. }
  split; [exact Hremote|].
  unfold newRootedTransactioner.
  destruct (Chroot tmp "transactioner") as [tmp'|e]; [|left; reflexivity].
  destruct (remote c) as [fs|e] eqn:Hfs; simpl.
  - destruct Hremote as [Hh _]. repeat split; eauto.
  - right. exact Hremote.
Qed.

End Transactioner.

End ConsumerFacts.

(** * Facts about the repository lock *)

Module LockFacts.

Import Lock.

Lemma lock_key_inj (a b : string) : lock_key a = lock_key b -> a = b.
Proof. unfold lock_key. apply (inj (String.append "repo:")). Qed.

Lemma lock_inv_start k : lock_inv (fleet_start k).
Proof.
  intros i id ph Hi. simpl in Hi.
  apply lookup_replicate in Hi. destruct Hi as [Hi _]. discriminate.
Qed.

Lemma lock_inv_step (s : Fleet) (ev : event) :
  lock_inv s -> lock_inv (fleet_step s ev).
Proof.
  intros Hinv. destruct ev as [i id|i|i|i|key]; simpl.
  - destruct (workers s !! i) as [[| |]|] eqn:Hw; try exact Hinv.
    unfold Acquire. destruct (locks s !! lock_key id) eqn:Hk; [exact Hinv|].
    intros j id' ph Hj. simpl in *.
    apply list_lookup_insert_Some in Hj.
    destruct Hj as [(-> & Heq & _) | (Hne & Hj)].
    + injection Heq as <- _. apply lookup_insert_eq.
    + specialize (Hinv _ _ _ Hj).
      rewrite lookup_insert_ne; [exact Hinv|]. congruence.
  - destruct (workers s !! i) as [[|id [|]|]|] eqn:Hw; try exact Hinv.
    intros j id' ph Hj. simpl in *.
    apply list_lookup_insert_Some in Hj.
    destruct Hj as [(-> & Heq & _) | (Hne & Hj)]; [|eauto].
    injection Heq as <- _. eauto.
  - destruct (workers s !! i) as [[|id ph0|]|] eqn:Hw; try exact Hinv.
    intros j id' ph Hj. simpl in *.
    apply list_lookup_insert_Some in Hj.
    destruct Hj as [(_ & Heq & _) | (Hne & Hj)]; [discriminate|].
    pose proof (Hinv _ _ _ Hw) as Hi. pose proof (Hinv _ _ _ Hj) as Hj'.
    unfold Release. rewrite lookup_delete_ne; [exact Hj'|]. congruence.
  - intros j id' ph Hj. simpl in *.
    apply list_lookup_insert_Some in Hj.
    destruct Hj as [(_ & Heq & _) | (Hne & Hj)]; [discriminate|eauto].
  - destruct (locks s !! key) as [i|] eqn:Hk; [|exact Hinv].
    destruct (workers s !! i) as [[| |]|] eqn:Hw; try exact Hinv.
    intros j id' ph Hj. simpl in *.
    pose proof (Hinv _ _ _ Hj) as Hj'.
    unfold Release. rewrite lookup_delete_ne; [exact Hj'|].
    intros ->. congruence.
Qed.

Lemma lock_inv_run evs : forall s, lock_inv s -> lock_inv (fleet_run s evs).
Proof.
  induction evs as [|ev evs IH]; intros s Hinv; [exact Hinv|].
  simpl. apply IH, lock_inv_step, Hinv.
Qed.

(** C8.  In a fleet of [k] workers that share one lock table, after
    any sequence of deliveries, steps of work, ends of work, crashes
    and expiries: a key has at most one handle; two workers are never
    inside the unit of work of the same repository; the holder of a
    handle is the owner the table names; and [Acquire] on a key that
    is held fails, whoever asks. *)
Theorem one_handle_per_key (k : nat) (evs : list event) :
  let s := fleet_run (fleet_start k) evs in
  (forall i j key, holds_handle s i key -> holds_handle s j key -> i = j) /\
  (forall i j id ph1 ph2,
     workers s !! i = Some (Working id ph1) ->
     workers s !! j = Some (Working id ph2) -> i = j) /\
  (forall i key, holds_handle s i key -> locks s !! key = Some i) /\
  (forall key i j, locks s !! key = Some j -> Acquire (locks s) key i = None).
Proof.
  intros s.
  assert (Hinv : lock_inv s) by apply lock_inv_run, lock_inv_start.
  assert (Hown : forall i key, holds_handle s i key -> locks s !! key = Some i).
  { intros i key (id & ph & Hw & ->). eapply Hinv, Hw. }
  repeat split.
  - intros i j key Hi Hj. apply Hown in Hi, Hj. congruence.
  - intros i j id ph1 ph2 Hi Hj.
    apply Hinv in Hi, Hj. congruence.
  - exact Hown.
  - intros key i j Hk. unfold Acquire. rewrite Hk. reflexivity.
Qed.

Lemma one_handle_per_key_witness :
  let busy := fleet_run (fleet_start 3) (take 4 contention) in
  let later := fleet_run (fleet_start 3) contention in
  workers busy = [Working "R1" Transacting; Idle; Working "R2" Cloning] /\
  locks busy !! lock_key "R1" = Some 0 /\
  Acquire (locks busy) (lock_key "R1") 1 = None /\
  workers later = [Idle; Working "R1" Cloning; Working "R2" Cloning] /\
  locks later !! lock_key "R1" = Some 1.
Proof.
  destruct (one_handle_per_key 3 (take 4 contention)) as (_ & _ & Hown & Hfail).
  destruct (one_handle_per_key 3 contention) as (_ & _ & Hown' & _).
  assert (H0 : locks (fleet_run (fleet_start 3) (take 4 contention))
                 !! lock_key "R1" = Some 0).
  { apply Hown. exists "R1"%string, Transacting. split; reflexivity. }
  split; [reflexivity|]. split; [exact H0|].
  split; [exact (Hfail _ 1 0 H0)|]. split; [reflexivity|].
  apply Hown'. exists "R1"%string, Cloning. split; reflexivity.
Defined.

End LockFacts.
